(** * WeatherJukeboxAPI: the recommendation pools, the city-name corrector
      and the weather cache, embedded from the Python services.

    The services keep their state in module-level globals and call out to
    third-party libraries (fuzzywuzzy, random, httpx, datetime).  The
    embedding passes the globals around as explicit state records, takes the
    library functions whose results are not determined by this repository as
    section variables, and keeps Python's distinction between returning a
    value and raising an exception. *)

From Stdlib Require Import ZArith Lia Ascii String.
From stdpp Require Import base option list strings pretty gmap.

Local Open Scope string_scope.
Local Open Scope Z_scope.

(** ** Python values, exceptions and built-ins *)

Module Py.

(** The exception classes that the modelled code can raise or catch. *)
Inductive exn : Type :=
| ValueError
| TypeError
| KeyError
| IndexError
| RecursionError
| ValidationError
| RequestException
| TransportError.

(** A Python call either returns or raises. *)
Inductive outcome (A : Type) : Type :=
| Return (a : A)
| Raise (e : exn).

Arguments Return {A} a.
Arguments Raise {A} e.

Definition bind {A B : Type} (m : outcome A) (k : A → outcome B) : outcome B :=
  match m with
  | Return a => k a
  | Raise e => Raise e
  end.

(** [max(iterable)] on integers: ValueError on an empty iterable. *)
Definition max (l : list Z) : outcome Z :=
  match l with
  | [] => Raise ValueError
  | x :: l' => Return (foldl Z.max x l')
  end.

(** [random.choice(seq)] is [seq[randbelow(len(seq))]]; [draw] is what the
    generator yields for this call, reduced into range. *)
Definition choice {A : Type} (draw : nat) (seq : list A) : outcome A :=
  match seq !! (draw mod length seq)%nat with
  | Some x => Return x
  | None => Raise IndexError
  end.

(** [list.remove(x)] deletes the first element [y] with [y is x or y == x]
    and raises ValueError when there is none. *)
Fixpoint remove {A : Type} (same : A → A → bool) (x : A) (l : list A)
  : outcome (list A) :=
  match l with
  | [] => Raise ValueError
  | y :: l' =>
      if same y x then Return l'
      else bind (remove same x l') (λ r, Return (y :: r))
  end.

End Py.

Abbreviation Return := Py.Return.
Abbreviation Raise := Py.Raise.

(** ** models.py

    The fields of the two recommendation models carry a prefix, since
    [VideoData] has a [url] and a [description] of its own. *)

Record VideoData : Type := mkVideoData {
  url : string;
  description : string;
  matched_weather_descriptions : list string;
  played : bool
}.

Record MusicRecommendation : Type := mkMusicRecommendation {
  rec_url : option string;
  rec_description : option string;
  rec_message : string
}.

Record MovieRecommendation : Type := mkMovieRecommendation {
  poster_url : option string;
  movie_title : option string;
  movie_message : string
}.

Record WeatherResponse : Type := mkWeatherResponse {
  city_name : string;
  weather_description : string;
  display_text : string;
  current_weather_type : string
}.

#[global] Instance VideoData_eq_dec : EqDecision VideoData.
Proof. solve_decision. Defined.

#[global] Instance VideoData_inhabited : Inhabited VideoData :=
  populate (mkVideoData "" "" [] false).

#[global] Instance WeatherResponse_eq_dec : EqDecision WeatherResponse.
Proof. solve_decision. Defined.

(** ** services/music_service.py *)

Module Music.

(** The two module globals.  [VideoData] objects are mutable and shared by
    both lists, so the objects live in a heap: [_all_available_videos] is the
    list of the objects themselves in load order, and a reference to an
    object is its position in that list.  [_unplayed_videos] is a list of
    such references. *)
Record state : Type := mkState {
  _all_available_videos : list VideoData;
  _unplayed_videos : list nat
}.

Definition set_played (b : bool) (v : VideoData) : VideoData :=
  mkVideoData (url v) (description v) (matched_weather_descriptions v) b.

(** [a is b or a == b] for two references; pydantic's [__eq__] compares the
    field values of the two objects (some versions compare more, and so
    equate fewer objects: what is unequal here is unequal there). *)
Definition same_video (heap : list VideoData) (a b : nat) : bool :=
  bool_decide (a = b) || bool_decide (heap !!! a = heap !!! b).

(** [_load_videos_data]: [disk] is the parsed and validated content of the
    JSON file, [None] when the file is missing, is not JSON, or an item fails
    validation (every such failure is caught and leaves the globals alone). *)
Definition _load_videos_data (disk : option (list VideoData)) (st : state) : state :=
  match _all_available_videos st with
  | _ :: _ => st
  | [] =>
      match disk with
      | None => st
      | Some raw_data =>
          mkState raw_data
            (filter (λ r, played (raw_data !!! r) = false) (seq 0 (length raw_data)))
      end
  end.

Definition not_initialised : MusicRecommendation :=
  mkMusicRecommendation None None "音樂清單尚未初始化或為空。".

(** The reset on exhaustion: every flag cleared, the unplayed list refilled
    with all the objects. *)
Definition reset (st : state) : state :=
  mkState (set_played false <$> _all_available_videos st)
          (seq 0 (length (_all_available_videos st))).

Definition matched_message (weather_desc : string) (v : VideoData) : MusicRecommendation :=
  mkMusicRecommendation (Some (url v)) (Some (description v))
    ("已為您推薦與「" +:+ weather_desc +:+ "」相關的音樂：" +:+ description v).

Definition random_message (v : VideoData) : MusicRecommendation :=
  mkMusicRecommendation (Some (url v)) (Some (description v))
    ("已為您隨機推薦了一首音樂：" +:+ description v).

(** Marking the chosen object as played and taking it off the unplayed
    list (lines 94-95 and 128-129). *)
Definition mark_and_remove (chosen : nat) (st : state)
  : Py.outcome unit * state :=
  let heap := alter (set_played true) chosen (_all_available_videos st) in
  match Py.remove (same_video heap) chosen (_unplayed_videos st) with
  | Return rest => (Return (), mkState heap rest)
  | Raise e => (Raise e, mkState heap (_unplayed_videos st))
  end.

Section WithLibrary.

(** [fuzz.partial_ratio] and [str.lower]. *)
Variable partial_ratio : string → string → Z.
Variable lower : string → string.
Variable disk : option (list VideoData).

Definition best_score_for_video (weather_desc : string) (v : VideoData) : Py.outcome Z :=
  Py.max ((λ desc, partial_ratio (lower weather_desc) (lower desc))
            <$> matched_weather_descriptions v).

(** The scan of lines 79-90, started with [best_match = None] and
    [best_score = -1]. *)
Fixpoint best_match_loop (weather_desc : string) (heap : list VideoData)
    (videos : list nat) (best_match : option nat) (best_score : Z)
  : Py.outcome (option nat * Z) :=
  match videos with
  | [] => Return (best_match, best_score)
  | video :: rest =>
      match best_score_for_video weather_desc (heap !!! video) with
      | Raise e => Raise e
      | Return best_score_for_video =>
          if best_score <? best_score_for_video
          then best_match_loop weather_desc heap rest (Some video) best_score_for_video
          else best_match_loop weather_desc heap rest best_match best_score
      end
  end.

(** Lines 75-102: what the call does once the unplayed list is known to be
    non-empty. *)
Definition match_in_unplayed (weather_desc : string) (st : state)
  : Py.outcome (option MusicRecommendation) * state :=
  match best_match_loop weather_desc (_all_available_videos st)
          (_unplayed_videos st) None (-1) with
  | Raise e => (Raise e, st)
  | Return (Some best_match, best_score) =>
      if 70 <=? best_score then
        match mark_and_remove best_match st with
        | (Return _, st') =>
            (Return (Some (matched_message weather_desc
                             (_all_available_videos st' !!! best_match))), st')
        | (Raise e, st') => (Raise e, st')
        end
      else (Return None, st)
  | Return (None, _) => (Return None, st)
  end.

(** Lines 59-60 and 110-111: the loader is called when nothing is loaded. *)
Definition ensure_loaded (st : state) : state :=
  match _all_available_videos st with
  | [] => _load_videos_data disk st
  | _ :: _ => st
  end.

(** [find_and_recommend_music_by_desc].  [depth] is the number of Python
    frames still available: a call that finds none raises RecursionError. *)
Fixpoint find_and_recommend_music_by_desc (depth : nat) (weather_desc : string)
    (st : state) : Py.outcome (option MusicRecommendation) * state :=
  match depth with
  | O => (Raise Py.RecursionError, st)
  | S depth' =>
      let st1 := ensure_loaded st in
      match _all_available_videos st1 with
      | [] => (Return (Some not_initialised), st1)
      | _ :: _ =>
          match _unplayed_videos st1 with
          | [] => find_and_recommend_music_by_desc depth' weather_desc (reset st1)
          | _ :: _ => match_in_unplayed weather_desc st1
          end
      end
  end.

(** Lines 126-135 of [get_random_music_recommendation]. *)
Definition choose_in_unplayed (draw : nat) (st : state)
  : Py.outcome (option MusicRecommendation) * state :=
  match _unplayed_videos st with
  | [] => (Return None, st)
  | _ :: _ =>
      match Py.choice draw (_unplayed_videos st) with
      | Raise e => (Raise e, st)
      | Return chosen_video =>
          match mark_and_remove chosen_video st with
          | (Return _, st') =>
              (Return (Some (random_message
                               (_all_available_videos st' !!! chosen_video))), st')
          | (Raise e, st') => (Raise e, st')
          end
      end
  end.

(** [get_random_music_recommendation]; [draw] is the generator's output for
    the one [random.choice] the call performs. *)
Fixpoint get_random_music_recommendation (depth : nat) (draw : nat) (st : state)
  : Py.outcome (option MusicRecommendation) * state :=
  match depth with
  | O => (Raise Py.RecursionError, st)
  | S depth' =>
      let st1 := ensure_loaded st in
      match _all_available_videos st1 with
      | [] => (Return (Some not_initialised), st1)
      | _ :: _ =>
          match _unplayed_videos st1 with
          | [] => get_random_music_recommendation depth' draw (reset st1)
          | _ :: _ => choose_in_unplayed draw st1
          end
      end
  end.

(** A run of consecutive calls of [get_random_music_recommendation], one
    draw of the generator per call; what each call produced, oldest first. *)
Fixpoint consecutive_random (depth : nat) (draws : list nat) (st : state)
  : list (Py.outcome (option MusicRecommendation)) * state :=
  match draws with
  | [] => ([], st)
  | draw :: draws' =>
      let (result, st') := get_random_music_recommendation depth draw st in
      let (results, st'') := consecutive_random depth draws' st' in
      (result :: results, st'')
  end.

(** The serve operations in the form the specification gives them: if the
    unplayed list is empty when the call starts, refill it, then proceed. *)
Definition refill_if_empty (st : state) : state :=
  match _unplayed_videos st with
  | [] => reset st
  | _ :: _ => st
  end.

Definition serve_random_guarded (draw : nat) (st : state)
  : Py.outcome (option MusicRecommendation) * state :=
  choose_in_unplayed draw (refill_if_empty st).

Definition serve_by_match_guarded (weather_desc : string) (st : state)
  : Py.outcome (option MusicRecommendation) * state :=
  match_in_unplayed weather_desc (refill_if_empty st).

End WithLibrary.

(** The relation between the two globals that the service maintains: the
    unplayed list holds each object at most once, holds only loaded objects,
    and holds exactly those whose [played] flag is [False]. *)
Definition inv (st : state) : Prop :=
  NoDup (_unplayed_videos st)
  ∧ Forall (λ r, (r < length (_all_available_videos st))%nat) (_unplayed_videos st)
  ∧ Forall (λ r, r ∈ _unplayed_videos st ↔ played (_all_available_videos st !!! r) = false)
           (seq 0 (length (_all_available_videos st))).

#[global] Instance inv_dec (st : state) : Decision (inv st).
Proof. unfold inv. apply _. Defined.

(** The unplayed list holds every loaded object: the start of a cycle. *)
Definition full (st : state) : Prop :=
  _unplayed_videos st ≡ₚ seq 0 (length (_all_available_videos st)).

(** The state of a freshly imported module. *)
Definition initial : state := mkState [] [].

End Music.

(** ** services/movie_service.py *)

Module Movie.

(** The two module globals: lists of file names. *)
Record state : Type := mkState {
  _all_movie_posters : list string;
  _unrecommended_posters : list string
}.

(** [s.endswith(suffix)]. *)
Definition endswith (s suffix : string) : bool :=
  let n := String.length s in
  let m := String.length suffix in
  (m <=? n)%nat && String.eqb (String.substring (n - m) m s) suffix.

(** [s.replace(old, new)] for one-character, one-byte [old] and [new]. *)
Fixpoint replace (old new : ascii) (s : string) : string :=
  match s with
  | EmptyString => EmptyString
  | String c s' => String (if Ascii.eqb c old then new else c) (replace old new s')
  end.

Definition formats : list string := [".png"; ".jpg"; ".jpeg"; ".gif"].

Definition not_initialised : MovieRecommendation :=
  mkMovieRecommendation None None "電影海報清單尚未初始化或為空。".

Section WithLibrary.

(** [str.lower], the root part of [os.path.splitext], [urllib.parse.quote]
    and [request.url_for("statics", path=...)]. *)
Variable lower : string → string.
Variable splitext_root : string → string.
Variable quote : string → string.
Variable url_for : string → string.

(** [listing] is [os.listdir] of the poster directory, [None] when the
    directory does not exist or cannot be listed. *)
Variable listing : option (list string).

Definition _load_movie_posters (st : state) : state :=
  match _all_movie_posters st with
  | _ :: _ => st
  | [] =>
      match listing with
      | None => st
      | Some files =>
          let posters :=
            filter (λ f, existsb (endswith (lower f)) formats = true) files in
          mkState posters posters
      end
  end.

Definition recommendation (chosen_poster_filename : string) : MovieRecommendation :=
  let movie_title :=
    replace "-" " " (replace "_" " " (splitext_root chosen_poster_filename)) in
  let encoded_filename := quote chosen_poster_filename in
  mkMovieRecommendation
    (Some (url_for ("movie/" +:+ encoded_filename)))
    (Some movie_title)
    ("為您推薦電影：" +:+ movie_title).

(** Lines 93-111. *)
Definition choose_in_unrecommended (draw : nat) (st : state)
  : Py.outcome (option MovieRecommendation) * state :=
  match _unrecommended_posters st with
  | [] => (Return None, st)
  | _ :: _ =>
      match Py.choice draw (_unrecommended_posters st) with
      | Raise e => (Raise e, st)
      | Return chosen_poster_filename =>
          match Py.remove String.eqb chosen_poster_filename
                  (_unrecommended_posters st) with
          | Raise e => (Raise e, st)
          | Return rest =>
              (Return (Some (recommendation chosen_poster_filename)),
               mkState (_all_movie_posters st) rest)
          end
      end
  end.

(** Lines 82-83: the loader is called when nothing is loaded. *)
Definition ensure_loaded (st : state) : state :=
  match _all_movie_posters st with
  | [] => _load_movie_posters st
  | _ :: _ => st
  end.

(** [get_random_movie_poster]; [depth] and [draw] as in the music service. *)
Fixpoint get_random_movie_poster (depth : nat) (draw : nat) (st : state)
  : Py.outcome (option MovieRecommendation) * state :=
  match depth with
  | O => (Raise Py.RecursionError, st)
  | S depth' =>
      let st1 := ensure_loaded st in
      match _all_movie_posters st1 with
      | [] => (Return (Some not_initialised), st1)
      | _ :: _ =>
          match _unrecommended_posters st1 with
          | [] =>
              get_random_movie_poster depth' draw
                (mkState (_all_movie_posters st1) (_all_movie_posters st1))
          | _ :: _ => choose_in_unrecommended draw st1
          end
      end
  end.

Fixpoint consecutive_random (depth : nat) (draws : list nat) (st : state)
  : list (Py.outcome (option MovieRecommendation)) * state :=
  match draws with
  | [] => ([], st)
  | draw :: draws' =>
      let (result, st') := get_random_movie_poster depth draw st in
      let (results, st'') := consecutive_random depth draws' st' in
      (result :: results, st'')
  end.

(** The serve operation in the form the specification gives it. *)
Definition refill_if_empty (st : state) : state :=
  match _unrecommended_posters st with
  | [] => mkState (_all_movie_posters st) (_all_movie_posters st)
  | _ :: _ => st
  end.

Definition serve_random_guarded (draw : nat) (st : state)
  : Py.outcome (option MovieRecommendation) * state :=
  choose_in_unrecommended draw (refill_if_empty st).

End WithLibrary.

(** The start of a cycle: every poster is still to be recommended. *)
Definition full (st : state) : Prop :=
  _unrecommended_posters st ≡ₚ _all_movie_posters st.

End Movie.

(** ** The fuzzywuzzy interface used by the weather service *)

Module Fuzzywuzzy.

(** What [process.extractOne] yields for one choice: for a list of choices
    the pair [(choice, score)], for a mapping of choices the triple
    [(choice, score, key)]. *)
Inductive extraction : Type :=
| Pair (choice : string) (score : Z)
| Triple (choice : string) (score : Z) (key : string).

Definition score_of (e : extraction) : Z :=
  match e with
  | Pair _ s => s
  | Triple _ s _ => s
  end.

Definition is_pair (e : extraction) : Prop :=
  match e with
  | Pair _ _ => True
  | Triple _ _ _ => False
  end.

(** [max(best_list, key=lambda i: i[1])]: the first element of greatest
    score, [None] for an empty list (the ValueError is caught). *)
Fixpoint max_by_score (best : extraction) (rest : list extraction) : extraction :=
  match rest with
  | [] => best
  | e :: rest' =>
      if score_of best <? score_of e then max_by_score e rest'
      else max_by_score best rest'
  end.

Section Process.

(** The scorer handed to [extractOne] and the default processor
    [utils.full_process]. *)
Variable scorer : string → string → Z.
Variable full_process : string → string.

(** [extractWithoutOrder] on a list of choices, with [score_cutoff]. *)
Definition extractWithoutOrder (query : string) (choices : list string)
    (score_cutoff : Z) : list extraction :=
  omap (λ choice,
          let score := scorer (full_process query) (full_process choice) in
          if score_cutoff <=? score then Some (Pair choice score) else None)
       choices.

(** [process.extractOne(query, choices, scorer=scorer)] on a list. *)
Definition extractOne (query : string) (choices : list string) : option extraction :=
  match extractWithoutOrder query choices 0 with
  | [] => None
  | e :: rest => Some (max_by_score e rest)
  end.

End Process.

End Fuzzywuzzy.

(** ** services/weather_service.py *)

Module Weather.

(** A decoded JSON document, as [res.json()] returns it.  Numbers are
    integers here: the service only ever tests a number for truth or for
    equality.  An object lists its members in insertion order, each key
    once. *)
#[local] Unset Elimination Schemes.
Inductive json : Type :=
| JNull
| JBool (b : bool)
| JNum (n : Z)
| JStr (s : string)
| JArr (items : list json)
| JObj (members : list (string * json)).
#[local] Set Elimination Schemes.

(** A naive [datetime]. *)
Record datetime : Type := mkDatetime {
  year : Z; month : Z; day : Z; hour : Z; minute : Z; second : Z; microsecond : Z
}.

Fixpoint assoc {A : Type} (key : string) (members : list (string * A)) : option A :=
  match members with
  | [] => None
  | (k, v) :: rest => if String.eqb k key then Some v else assoc key rest
  end.

(** [needle in hay] for two strings. *)
Fixpoint is_substring (needle hay : string) : bool :=
  String.prefix needle hay ||
  match hay with
  | EmptyString => false
  | String _ hay' => is_substring needle hay'
  end.

Definition number_of (j : json) : option Z :=
  match j with
  | JBool b => Some (if b then 1 else 0)
  | JNum n => Some n
  | _ => None
  end.

(** [a == b] on decoded JSON: [True == 1], dictionaries compare as sets of
    members. *)
Fixpoint py_eq (a b : json) : bool :=
  match a with
  | JNull => match b with JNull => true | _ => false end
  | JBool _ | JNum _ =>
      match number_of a, number_of b with
      | Some x, Some y => x =? y
      | _, _ => false
      end
  | JStr s => match b with JStr t => String.eqb s t | _ => false end
  | JArr items =>
      match b with
      | JArr items' =>
          (fix go (l : list json) (m : list json) : bool :=
             match l, m with
             | [], [] => true
             | x :: l', y :: m' => py_eq x y && go l' m'
             | _, _ => false
             end) items items'
      | _ => false
      end
  | JObj members =>
      match b with
      | JObj members' =>
          (length members =? length members')%nat &&
          (fix go (l : list (string * json)) : bool :=
             match l with
             | [] => true
             | (k, v) :: l' =>
                 match assoc k members' with
                 | Some v' => py_eq v v'
                 | None => false
                 end && go l'
             end) members
      | _ => false
      end
  end.

(** [key in container] for a string key. *)
Definition contains (key : string) (container : json) : Py.outcome bool :=
  match container with
  | JObj members => Return (bool_decide (is_Some (assoc key members)))
  | JArr items => Return (existsb (py_eq (JStr key)) items)
  | JStr s => Return (is_substring key s)
  | _ => Raise Py.TypeError
  end.

(** [container[key]] for a string key. *)
Definition getitem (container : json) (key : string) : Py.outcome json :=
  match container with
  | JObj members =>
      match assoc key members with
      | Some v => Return v
      | None => Raise Py.KeyError
      end
  | _ => Raise Py.TypeError
  end.

(** [container[0]]; of a string, its first character, of which the caller
    only uses that it is a string. *)
Definition first (container : json) : Py.outcome json :=
  match container with
  | JArr (x :: _) => Return x
  | JArr [] => Raise Py.IndexError
  | JStr (String c _) => Return (JStr (String c EmptyString))
  | JStr EmptyString => Raise Py.IndexError
  | JObj _ => Raise Py.KeyError
  | _ => Raise Py.TypeError
  end.

(** Truth value of a decoded JSON value. *)
Definition truthy (j : json) : bool :=
  match j with
  | JNull => false
  | JBool b => b
  | JNum n => negb (n =? 0)
  | JStr s => negb (String.eqb s "")
  | JArr items => match items with [] => false | _ => true end
  | JObj members => match members with [] => false | _ => true end
  end.

(** The items of [for x in j]: a list yields its elements, a dictionary its
    keys, a string its characters (whose contents no caller looks at). *)
Definition iterate (j : json) : Py.outcome (list json) :=
  match j with
  | JArr items => Return items
  | JObj members => Return ((λ kv, JStr (fst kv)) <$> members)
  | JStr s => Return ((λ c, JStr (String c EmptyString)) <$> list_ascii_of_string s)
  | _ => Raise Py.TypeError
  end.

(** The characters of a [str], which is kept as its UTF-8 encoding: a
    character starts at a byte that is not a continuation byte. *)
Definition utf8_width (c : ascii) : nat :=
  let n := nat_of_ascii c in
  if (n <? 192)%nat then 1%nat
  else if (n <? 224)%nat then 2%nat
  else if (n <? 240)%nat then 3%nat
  else 4%nat.

Fixpoint characters_from (bytes : nat) (s : string) : list string :=
  match bytes with
  | O => []
  | S bytes' =>
      match s with
      | EmptyString => []
      | String c _ =>
          let w := utf8_width c in
          String.substring 0 w s
            :: characters_from bytes' (String.substring w (String.length s - w) s)
      end
  end.

Definition characters (s : string) : list string :=
  characters_from (String.length s) s.

(** The module globals [_location_names] and [_weather_data_cache], with the
    two counters that place the call in its environment: how often the clock
    has been read, and the URLs requested so far, oldest first. *)
Record state : Type := mkState {
  _location_names : list json;
  _weather_data_cache : gmap string (WeatherResponse * datetime);
  clock_reads : nat;
  requests : list string
}.

(** A computation over the globals that returns or raises. *)
Definition M (A : Type) : Type := state → Py.outcome A * state.

Definition ret {A : Type} (a : A) : M A := λ st, (Return a, st).

Definition lift {A : Type} (o : Py.outcome A) : M A := λ st, (o, st).

Definition bind {A B : Type} (m : M A) (k : A → M B) : M B :=
  λ st, match m st with
        | (Return a, st') => k a st'
        | (Raise e, st') => (Raise e, st')
        end.

(** [try: body except Exception as e: handler(e)]. *)
Definition try_except {A : Type} (body : M A) (handler : Py.exn → M A) : M A :=
  λ st, match body st with
        | (Return a, st') => (Return a, st')
        | (Raise e, st') => handler e st'
        end.

Notation "x <- m ;; k" := (bind m (λ x, k))
  (at level 100, m at next level, right associativity).
Notation "x <~ m ;; k" := (Py.bind m (λ x, k))
  (at level 100, m at next level, right associativity).

(** The globals and the request log of [st'] are those of [st]; only the
    clock may have been read in between. *)
Definition same_globals (st st' : state) : Prop :=
  _location_names st' = _location_names st
  ∧ _weather_data_cache st' = _weather_data_cache st
  ∧ requests st' = requests st.

Definition reads_clock_only {A : Type} (m : M A) : Prop :=
  ∀ st, same_globals st (m st).2.

(** The state after one more reading of the clock. *)
Definition tick (st : state) : state :=
  mkState (_location_names st) (_weather_data_cache st)
          (S (clock_reads st)) (requests st).

(** The state after one more request. *)
Definition requested (url : string) (st : state) : state :=
  mkState (_location_names st) (_weather_data_cache st)
          (clock_reads st) (requests st ++ [url]).

Definition fallback_locations : list string :=
  ["臺北市"; "新北市"; "桃園市"; "臺中市"; "臺南市"; "高雄市"; "基隆市"; "新竹市"; "嘉義市";
   "新竹縣"; "苗栗縣"; "彰化縣"; "南投縣"; "雲林縣"; "嘉義縣"; "屏東縣"; "宜蘭縣"; "花蓮縣";
   "臺東縣"; "澎湖縣"; "金門縣"; "連江縣"].

Definition as_str (j : json) : Py.outcome string :=
  match j with
  | JStr s => Return s
  | _ => Raise Py.TypeError
  end.

Fixpoint traverse {A B : Type} (f : A → Py.outcome B) (l : list A) : Py.outcome (list B) :=
  match l with
  | [] => Return []
  | x :: l' => y <~ f x ;; ys <~ traverse f l' ;; Return (y :: ys)
  end.

(** [next((elem for elem in elems if elem['elementName'] == 'PoP'), None)]. *)
Fixpoint find_pop (elems : list json) : Py.outcome (option json) :=
  match elems with
  | [] => Return None
  | elem :: rest =>
      name <~ getitem elem "elementName" ;;
      if py_eq name (JStr "PoP") then Return (Some elem) else find_pop rest
  end.

(** The loop of lines 128-131; the result is the final value of [pop]. *)
Fixpoint pop_loop (forecast : json) (pop_times : list json) : Py.outcome string :=
  match pop_times with
  | [] => Return "N/A"
  | pop_time :: rest =>
      a <~ getitem pop_time "startTime" ;;
      b <~ getitem forecast "startTime" ;;
      same <~ (if py_eq a b
               then c <~ getitem pop_time "endTime" ;;
                    d <~ getitem forecast "endTime" ;;
                    Return (py_eq c d)
               else Return false) ;;
      if same : bool
      then p <~ getitem pop_time "parameter" ;;
           n <~ getitem p "parameterName" ;;
           s <~ as_str n ;;
           Return (s +:+ "%")
      else pop_loop forecast rest
  end.

Definition time_desc (hour : Z) : string :=
  if (0 <=? hour) && (hour <? 6) then "午夜到早晨"
  else if (6 <=? hour) && (hour <? 12) then "早晨到中午"
  else if (12 <=? hour) && (hour <? 18) then "中午到傍晚"
  else "傍晚到午夜".

Section WithEnvironment.

(** From [settings], which is not part of the sources at hand. *)
Variable CWA_API_KEY : string.
Variable MANUAL_CORRECTIONS : gmap string string.
Variable WEATHER_KEYWORDS_MAP : list (string * string).

(** [process.extractOne(query, choices, scorer=fuzz.ratio)]. *)
Variable extractOne : string → list string → option Fuzzywuzzy.extraction.

(** [str.isdigit] on one character, [str(e)] for an exception, and
    [datetime.strptime(s, '%Y-%m-%d %H:%M:%S')] ([None]: ValueError). *)
Variable isdigit : string → bool.
Variable str_of_exn : Py.exn → string.
Variable strptime : string → option datetime.

(** The position of a [datetime] on the time line, in microseconds; the
    difference of two datetimes is the difference of their positions. *)
Variable timeline : datetime → Z.

(** The environment: [clock n] is what the [n]-th [datetime.now()] of the
    process returns, [http_get n url] what [_fetch_data_from_cwa(url)] does
    as the [n]-th request (it raises on a transport error, a timeout, a
    non-2xx status or a body that is not JSON). *)
Variable clock : nat → datetime.
Variable http_get : nat → string → Py.outcome json.

Definition now : M datetime :=
  λ st, (Return (clock (clock_reads st)), tick st).

Definition _fetch_data_from_cwa (url : string) : M json :=
  λ st, (http_get (length (requests st)) url, requested url st).

Definition set_location_names (names : list json) : M unit :=
  λ st, (Return (),
         mkState names (_weather_data_cache st) (clock_reads st) (requests st)).

Definition cache_store (key : string) (response : WeatherResponse)
    (timestamp : datetime) : M unit :=
  λ st, (Return (),
         mkState (_location_names st)
                 (<[key := (response, timestamp)]> (_weather_data_cache st))
                 (clock_reads st) (requests st)).

Definition cache_lookup (key : string) : M (option (WeatherResponse * datetime)) :=
  λ st, (Return (_weather_data_cache st !! key), st).

Definition locations_url : string :=
  "https://opendata.cwa.gov.tw/api/v1/rest/datastore/F-C0032-001?Authorization="
    +:+ CWA_API_KEY.

Definition weather_url (corrected_city : string) : string :=
  locations_url +:+ "&locationName=" +:+ corrected_city.

(** [_get_all_location_names].  The names are whatever the reply has under
    [locationName], kept as they come; the built-in names are strings. *)
Definition _get_all_location_names : M (list json) :=
  λ st,
    match _location_names st with
    | _ :: _ => (Return (_location_names st), st)
    | [] =>
        (fetched <-
           try_except
             (response <- _fetch_data_from_cwa locations_url ;;
              has_records <- lift (contains "records" response) ;;
              has_location <-
                (if has_records : bool
                 then records <- lift (getitem response "records") ;;
                      lift (contains "location" records)
                 else ret false) ;;
              if has_location : bool
              then records <- lift (getitem response "records") ;;
                   location <- lift (getitem records "location") ;;
                   locs <- lift (iterate location) ;;
                   names <- lift (traverse (λ loc, getitem loc "locationName") locs) ;;
                   _ <- set_location_names names ;;
                   ret (Some names)
              else ret None)
             (λ e, ret None) ;;
         match fetched with
         | Some names => ret names
         | None =>
             _ <- set_location_names (JStr <$> fallback_locations) ;;
             ret (JStr <$> fallback_locations)
         end) st
    end.

(** [process.extractOne(query, choices, scorer=fuzz.ratio)] on a list of
    decoded values: the library runs its processor over every choice, which
    raises TypeError on a choice that is not a [str]; on a list of strings
    the call is [extractOne]. *)
Definition process_extractOne (query : string) (choices : list json)
  : Py.outcome (option Fuzzywuzzy.extraction) :=
  names <~ traverse as_str choices ;;
  Return (extractOne query names).

(** [_auto_correct_city]: the three targets of the assignment on line 62
    need a triple; a pair raises ValueError, [None] raises TypeError.  The
    candidates are the values that [_get_all_location_names] handed over;
    [corrected in available_locations] compares the string with each. *)
Definition _auto_correct_city (input_city : string) (available_locations : list json)
  : Py.outcome (option string) :=
  let corrected := default input_city (MANUAL_CORRECTIONS !! input_city) in
  if existsb (py_eq (JStr corrected)) available_locations then Return (Some corrected)
  else
    match available_locations with
    | _ :: _ =>
        best <~ process_extractOne corrected available_locations ;;
        match best with
        | Some (Fuzzywuzzy.Triple match_ score _) =>
            if 75 <=? score then Return (Some match_) else Return None
        | Some (Fuzzywuzzy.Pair _ _) => Raise Py.ValueError
        | None => Raise Py.TypeError
        end
    | [] => Return None
    end.

(** [_classify_weather_type]. *)
Definition _classify_weather_type (weather_desc : string) : string :=
  match list_find (λ kv, is_substring (fst kv) weather_desc = true) WEATHER_KEYWORDS_MAP with
  | Some (_, (_, anim_type)) => anim_type
  | None =>
      if is_substring "晴" weather_desc then "晴"
      else if is_substring "雨" weather_desc then "雨"
      else if is_substring "陰" weather_desc then "陰"
      else if is_substring "多雲" weather_desc then "多雲"
      else if is_substring "雪" weather_desc then "雪"
      else "晴"
  end.

Definition parse_time (j : json) : Py.outcome datetime :=
  s <~ as_str j ;;
  match strptime s with
  | Some dt => Return dt
  | None => Raise Py.ValueError
  end.

(** The key of the [min] on lines 117-118. *)
Definition distance (x : json) : M Z :=
  start <- lift (getitem x "startTime") ;;
  dt <- lift (parse_time start) ;;
  t <- now ;;
  ret (Z.abs (timeline dt - timeline t)).

Fixpoint min_loop (items : list json) (best : json) (best_key : Z) : M json :=
  match items with
  | [] => ret best
  | x :: rest =>
      k <- distance x ;;
      if k <? best_key then min_loop rest x k else min_loop rest best best_key
  end.

(** [min(items, key=distance)]: the first item of least key. *)
Definition min_by_distance (items : list json) : M json :=
  match items with
  | [] => lift (Raise Py.ValueError)
  | x :: rest => k <- distance x ;; min_loop rest x k
  end.

Definition invalid_input (city_input : string) : WeatherResponse :=
  mkWeatherResponse city_input "無效輸入" "縣市名稱不能包含數字！" "晴".

Definition unrecognised (city_input : string) : WeatherResponse :=
  mkWeatherResponse city_input "無效輸入"
    ("無效或無法識別的縣市: " +:+ city_input) "晴".

Definition malformed (corrected_city : string) : WeatherResponse :=
  mkWeatherResponse corrected_city "N/A"
    "無法取得天氣資料：資料結構異常或無有效預報" "晴".

Definition request_failed (corrected_city : string) (e : Py.exn) : WeatherResponse :=
  mkWeatherResponse corrected_city "N/A"
    ("無法取得天氣資料：網路或API錯誤 (" +:+ str_of_exn e +:+ ")") "晴".

Definition processing_failed (corrected_city : string) (e : Py.exn) : WeatherResponse :=
  mkWeatherResponse corrected_city "N/A"
    ("處理天氣資料時發生錯誤: " +:+ str_of_exn e) "晴".

(** What the two handlers of lines 151-166 return for the exception [e]. *)
Definition on_error (corrected_city : string) (e : Py.exn) : WeatherResponse :=
  match e with
  | Py.RequestException => request_failed corrected_city e
  | _ => processing_failed corrected_city e
  end.

(** The condition of line 114. *)
Definition has_forecast (data : json) : Py.outcome bool :=
  has_records <~ contains "records" data ;;
  if has_records : bool
  then records <~ getitem data "records" ;;
       has_location <~ contains "location" records ;;
       if has_location : bool
       then location <~ getitem records "location" ;;
            Return (truthy location)
       else Return false
  else Return false.

(** [desc] as the [str] that [_classify_weather_type] and the response model
    need: a number, a boolean or null makes the classifier's [in] raise
    TypeError, a list or a dictionary fails the model's validation. *)
Definition description_text (desc : json) : Py.outcome string :=
  match desc with
  | JStr d => Return d
  | JArr _ | JObj _ => Raise Py.ValidationError
  | _ => Raise Py.TypeError
  end.

(** Lines 116-141: the response built from a usable reply. *)
Definition build_response (corrected_city : string) (data : json) : M WeatherResponse :=
  records <- lift (getitem data "records") ;;
  location <- lift (getitem records "location") ;;
  location0 <- lift (first location) ;;
  elements <- lift (getitem location0 "weatherElement") ;;
  element0 <- lift (first elements) ;;
  time_elements <- lift (getitem element0 "time") ;;
  items <- lift (iterate time_elements) ;;
  forecast <- min_by_distance items ;;
  parameter <- lift (getitem forecast "parameter") ;;
  desc <- lift (getitem parameter "parameterName") ;;
  start <- lift (getitem forecast "startTime") ;;
  start_dt <- lift (parse_time start) ;;
  elems <- lift (iterate elements) ;;
  pop_data <- lift (find_pop elems) ;;
  pop <- lift (match pop_data with
               | Some pop_data =>
                   if truthy pop_data
                   then times <~ getitem pop_data "time" ;;
                        pop_times <~ iterate times ;;
                        pop_loop forecast pop_times
                   else Return "N/A"
               | None => Return "N/A"
               end) ;;
  weather_desc <- lift (description_text desc) ;;
  let display_text :=
    corrected_city +:+ " " +:+ pretty (month start_dt) +:+ "/"
      +:+ pretty (day start_dt) +:+ " " +:+ time_desc (hour start_dt)
      +:+ "是：" +:+ weather_desc +:+ "，降雨機率" +:+ pop +:+ "喔！" in
  ret (mkWeatherResponse corrected_city weather_desc display_text
         (_classify_weather_type weather_desc)).

(** Lines 116-144: the response is built, stored with the time of storing,
    and returned. *)
Definition forecast_response (corrected_city : string) (data : json) : M WeatherResponse :=
  response <- build_response corrected_city data ;;
  timestamp <- now ;;
  _ <- cache_store corrected_city response timestamp ;;
  ret response.

(** The freshness test of line 108: [total_seconds() < 600], on
    microseconds. *)
Definition fresh (t timestamp : datetime) : bool :=
  timeline t - timeline timestamp <? 600 * 1000000.

(** Lines 105-109: the cached response if there is one and it is fresh. *)
Definition cache_check (corrected_city : string) : M (option WeatherResponse) :=
  cached <- cache_lookup corrected_city ;;
  match cached with
  | Some (response, timestamp) =>
      t <- now ;;
      ret (if fresh t timestamp then Some response else None)
  | None => ret None
  end.

(** Lines 111-166: the upstream fetch and its two handlers. *)
Definition fetch_weather (corrected_city : string) : M WeatherResponse :=
  try_except
    (data <- _fetch_data_from_cwa (weather_url corrected_city) ;;
     usable <- lift (has_forecast data) ;;
     if usable : bool
     then forecast_response corrected_city data
     else ret (malformed corrected_city))
    (λ e, match e with
          | Py.RequestException => ret (request_failed corrected_city e)
          | _ => ret (processing_failed corrected_city e)
          end).

(** The state after [response] has been stored for [corrected_city]: the
    time stamp is one more reading of the clock. *)
Definition stored (corrected_city : string) (response : WeatherResponse) (st : state)
  : state :=
  mkState (_location_names st)
          (<[corrected_city := (response, clock (clock_reads st))]> (_weather_data_cache st))
          (S (clock_reads st)) (requests st).

(** The upstream fetch for [corrected_city], issued in state [st], succeeds
    with [response]: the request returns a document that passes the test of
    line 114 and from which lines 116-141 build [response], reaching [st']. *)
Definition fetch_succeeds (corrected_city : string) (st : state)
    (response : WeatherResponse) (st' : state) : Prop :=
  ∃ data,
    http_get (length (requests st)) (weather_url corrected_city) = Return data
    ∧ has_forecast data = Return true
    ∧ build_response corrected_city data (requested (weather_url corrected_city) st)
      = (Return response, st').

(** [get_current_weather]. *)
Definition get_current_weather (city_input : string) : M WeatherResponse :=
  if existsb isdigit (characters city_input) then ret (invalid_input city_input)
  else
    available_locations <- _get_all_location_names ;;
    corrected_city <- lift (_auto_correct_city city_input available_locations) ;;
    match corrected_city with
    | None | Some EmptyString => ret (unrecognised city_input)
    | Some corrected_city =>
        hit <- cache_check corrected_city ;;
        match hit with
        | Some response => ret response
        | None => fetch_weather corrected_city
        end
    end.

End WithEnvironment.

End Weather.

(** ** api/routes.py and main.py *)

Module Routes.

Section WithServices.

Variable partial_ratio : string → string → Z.
Variable lower : string → string.
Variable disk : option (list VideoData).
Variable splitext_root : string → string.
Variable quote : string → string.
Variable url_for : string → string.
Variable listing : option (list string).

(** What [recommend_music] answers when the service returns [None]. *)
Definition no_match (desc : string) : MusicRecommendation :=
  mkMusicRecommendation None None
    ("找不到與「" +:+ desc +:+ "」相關的未播放音樂，或所有音樂已播放完畢。").

(** What [get_random_music] answers when the service returns [None]. *)
Definition all_played : MusicRecommendation :=
  mkMusicRecommendation None None "所有音樂都已播放完畢！列表已重置。".

(** What [get_random_movie] answers when the service returns [None]. *)
Definition all_recommended : MovieRecommendation :=
  mkMovieRecommendation None None "所有電影都已推薦完畢！列表已重置。".

(** [recommend_music]: a recommendation object is always truthy, so
    [if not recommended_video] is the test for [None]. *)
Definition recommend_music (depth : nat) (desc : string) (st : Music.state)
  : Py.outcome MusicRecommendation * Music.state :=
  match Music.find_and_recommend_music_by_desc partial_ratio lower disk depth desc st with
  | (Return (Some recommended_video), st') => (Return recommended_video, st')
  | (Return None, st') => (Return (no_match desc), st')
  | (Raise e, st') => (Raise e, st')
  end.

(** [get_random_music]. *)
Definition get_random_music (depth : nat) (draw : nat) (st : Music.state)
  : Py.outcome MusicRecommendation * Music.state :=
  match Music.get_random_music_recommendation disk depth draw st with
  | (Return (Some random_video), st') => (Return random_video, st')
  | (Return None, st') => (Return all_played, st')
  | (Raise e, st') => (Raise e, st')
  end.

(** [get_random_movie]. *)
Definition get_random_movie (depth : nat) (draw : nat) (st : Movie.state)
  : Py.outcome MovieRecommendation * Movie.state :=
  match Movie.get_random_movie_poster lower splitext_root quote url_for listing
          depth draw st with
  | (Return (Some random_poster), st') => (Return random_poster, st')
  | (Return None, st') => (Return all_recommended, st')
  | (Raise e, st') => (Raise e, st')
  end.

End WithServices.

End Routes.

Module Main.

(** The start-up half of [lifespan]: both loaders, once, on the globals of
    the freshly imported modules. *)
Definition startup (lower : string → string) (disk : option (list VideoData))
    (listing : option (list string)) : Music.state * Movie.state :=
  (Music._load_videos_data disk Music.initial,
   Movie._load_movie_posters lower listing (Movie.mkState [] [])).

(** What makes a video the same catalogue entry whatever its flag. *)
Definition catalogue (st : Music.state) : list VideoData :=
  Music.set_played false <$> Music._all_available_videos st.

End Main.

(** ** Notions used to state properties of the weather service *)

(** Every cached response is filed under the city it names. *)
Definition well_filed (cache : gmap string (WeatherResponse * Weather.datetime)) : Prop :=
  ∀ key response timestamp,
    cache !! key = Some (response, timestamp) → city_name response = key.

(** The keys that the [min] of lines 117-118 compares, for time slots that
    start at [starts], when the clock has been read [reads] times before:
    slot [j] is measured against the [j]-th further reading. *)
Definition distances (timeline : Weather.datetime → Z) (clock : nat → Weather.datetime)
    (reads : nat) (starts : list Weather.datetime) : list Z :=
  imap (λ j dt, Z.abs (timeline dt - timeline (clock (reads + j)%nat))) starts.

(** The start of a time slot, as [distance] reads it. *)
Definition start_of (strptime : string → option Weather.datetime) (x : Weather.json)
  : Py.outcome Weather.datetime :=
  Py.bind (Weather.getitem x "startTime") (Weather.parse_time strptime).

(** ** Data for the worked examples *)

Module Example.

(** A scorer for the worked examples: 100 for equal strings, 0 otherwise.
    On the strings used below it gives what [fuzz.partial_ratio] and
    [fuzz.ratio] give: equal strings score 100, strings with no character in
    common score 0.  None of these strings has a cased character, so
    [str.lower] is the identity on them. *)
Definition exact_ratio (a b : string) : Z :=
  if String.eqb a b then 100 else 0.

Definition lower (s : string) : string := s.

Definition sunny : VideoData :=
  mkVideoData "https://youtu.be/sunny" "晴天的歌" ["晴天"] false.

Definition rainy : VideoData :=
  mkVideoData "https://youtu.be/rainy" "雨天的歌" ["下雨"; "雨天"] false.

Definition untagged : VideoData :=
  mkVideoData "https://youtu.be/untagged" "無標籤" [] false.

(** The music globals after loading [sunny] and [rainy]. *)
Definition loaded : Music.state := Music.mkState [sunny; rainy] [0%nat; 1%nat].

(** The music globals after [rainy], the only video, has been served. *)
Definition exhausted : Music.state :=
  Music.mkState [Music.set_played true rainy] [].

(** The music globals after loading the one video [untagged]. *)
Definition loaded_untagged : Music.state := Music.mkState [untagged] [0%nat].

(** The poster globals after loading a directory of two images. *)
Definition posters : Movie.state :=
  Movie.mkState ["a_b.png"; "c-d.jpg"] ["a_b.png"; "c-d.jpg"].

(** An environment for the weather service. *)
Definition MANUAL_CORRECTIONS : gmap string string := {[ "台北" := "臺北市" ]}.

Definition WEATHER_KEYWORDS_MAP : list (string * string) :=
  [("晴", "晴"); ("雨", "雨")].

(** [process.extractOne] with the example scorer and a processor that leaves
    these strings alone. *)
Definition extractOne : string → list string → option Fuzzywuzzy.extraction :=
  Fuzzywuzzy.extractOne exact_ratio (λ s, s).

Definition isdigit (c : string) : bool :=
  match c with
  | String a EmptyString => (48 <=? nat_of_ascii a)%nat && (nat_of_ascii a <=? 57)%nat
  | _ => false
  end.

Definition str_of_exn (e : Py.exn) : string := "error".

Definition noon : Weather.datetime := Weather.mkDatetime 2025 7 1 12 0 0 0.

Definition strptime (s : string) : option Weather.datetime :=
  if String.eqb s "2025-07-01 12:00:00" then Some noon else None.

(** Positions on the time line for datetimes of one day. *)
Definition timeline (dt : Weather.datetime) : Z :=
  ((Weather.hour dt * 60 + Weather.minute dt) * 60 + Weather.second dt) * 1000000
  + Weather.microsecond dt.

(** The clock shows 12:00:00 plus one minute for every reading so far. *)
Definition clock (n : nat) : Weather.datetime :=
  Weather.mkDatetime 2025 7 1 12 (Z.of_nat n) 0 0.

(** A clock that shows 13:00:00 throughout. *)
Definition late_clock (n : nat) : Weather.datetime :=
  Weather.mkDatetime 2025 7 1 13 0 0 0.

Definition forecast_reply : Weather.json :=
  Weather.JObj [("records", Weather.JObj [("location", Weather.JArr [
    Weather.JObj [("locationName", Weather.JStr "臺北市");
                  ("weatherElement", Weather.JArr [
                     Weather.JObj [("elementName", Weather.JStr "Wx");
                                   ("time", Weather.JArr [
                                      Weather.JObj [("startTime", Weather.JStr "2025-07-01 12:00:00");
                                                    ("endTime", Weather.JStr "2025-07-01 18:00:00");
                                                    ("parameter", Weather.JObj [("parameterName", Weather.JStr "晴時多雲")])]])];
                     Weather.JObj [("elementName", Weather.JStr "PoP");
                                   ("time", Weather.JArr [
                                      Weather.JObj [("startTime", Weather.JStr "2025-07-01 12:00:00");
                                                    ("endTime", Weather.JStr "2025-07-01 18:00:00");
                                                    ("parameter", Weather.JObj [("parameterName", Weather.JStr "20")])]])]])]])])].

(** An upstream that answers every request with [forecast_reply]. *)
Definition http_ok (n : nat) (url : string) : Py.outcome Weather.json :=
  Return forecast_reply.

(** An upstream that times out on every request. *)
Definition http_down (n : nat) (url : string) : Py.outcome Weather.json :=
  Raise Py.TransportError.

Definition cached_response : WeatherResponse :=
  mkWeatherResponse "臺北市" "陰天" "臺北市 7/1 中午到傍晚是：陰天，降雨機率10%喔！" "陰".

(** Names loaded, nothing cached. *)
Definition cold : Weather.state :=
  Weather.mkState (Weather.JStr <$> Weather.fallback_locations) ∅ 0 [].

(** Names loaded, a response for 臺北市 cached at noon. *)
Definition warm : Weather.state :=
  Weather.mkState (Weather.JStr <$> Weather.fallback_locations)
    {[ "臺北市" := (cached_response, noon) ]} 0 [].

(** Two time slots, starting at 06:00 and at 12:00. *)
Definition morning : Weather.datetime := Weather.mkDatetime 2025 7 1 6 0 0 0.

Definition strptime_slots (s : string) : option Weather.datetime :=
  if String.eqb s "2025-07-01 06:00:00" then Some morning
  else if String.eqb s "2025-07-01 12:00:00" then Some noon
  else None.

Definition slot (start : string) : Weather.json :=
  Weather.JObj [("startTime", Weather.JStr start)].

(** An alias table that sends a canonical name elsewhere. *)
Definition remapping : gmap string string := {[ "臺北市" := "新北市" ]}.

(** A reply to the request for the names in which a [locationName] is
    null, and an upstream that answers every request with it. *)
Definition null_name_reply : Weather.json :=
  Weather.JObj [("records", Weather.JObj [("location", Weather.JArr [
    Weather.JObj [("locationName", Weather.JNull)]])])].

Definition http_null_name (n : nat) (url : string) : Py.outcome Weather.json :=
  Return null_name_reply.

(** Nothing loaded, nothing cached. *)
Definition fresh_start : Weather.state := Weather.mkState [] ∅ 0 [].

(** The response that the lookup builds from [forecast_reply]. *)
Definition built_response : WeatherResponse :=
  mkWeatherResponse "臺北市" "晴時多雲"
    "臺北市 7/1 中午到傍晚是：晴時多雲，降雨機率20%喔！" "晴".

End Example.

(** * Properties *)

Local Close Scope string_scope.

(** ** Python built-ins *)

Lemma remove_middle {A : Type} (same : A → A → bool) (x : A) (l1 l2 : list A) :
  Forall (λ y, same y x = false) l1 →
  same x x = true →
  Py.remove same x (l1 ++ x :: l2) = Return (l1 ++ l2).
Proof.
  intros Hl1 Hx. induction Hl1 as [|y l1 Hy _ IH]; simpl.
  - by rewrite Hx.
  - by rewrite Hy, IH.
Qed.

Lemma choice_elem_of {A : Type} (draw : nat) (seq : list A) :
  seq ≠ [] → ∃ x, Py.choice draw seq = Return x ∧ x ∈ seq.
Proof.
  intros Hne. unfold Py.choice.
  assert (draw mod length seq < length seq)%nat as Hlt.
  { apply Nat.mod_upper_bound. destruct seq; [done | simpl; lia]. }
  destruct (lookup_lt_is_Some_2 _ _ Hlt) as [x Hx].
  rewrite Hx. exists x. split; [done |]. by eapply list_elem_of_lookup_2.
Qed.

Lemma NoDup_split_unique {A : Type} (x : A) (l1 l2 l1' l2' : list A) :
  NoDup (l1 ++ x :: l2) → l1 ++ x :: l2 = l1' ++ x :: l2' → l1' = l1 ∧ l2' = l2.
Proof.
  revert l1'. induction l1 as [|a l1 IH]; intros l1' Hnd Heq.
  - destruct l1' as [|b l1']; simplify_eq/=; [done |].
    apply NoDup_cons in Hnd as [Hnotin _]. exfalso. apply Hnotin.
    rewrite elem_of_app. right. left.
  - destruct l1' as [|b l1']; simplify_eq/=.
    + apply NoDup_cons in Hnd as [Hnotin _]. exfalso. apply Hnotin.
      rewrite elem_of_app. right. left.
    + apply NoDup_cons in Hnd as [_ Hnd].
      by destruct (IH l1' Hnd) as [-> ->].
Qed.

(** ** The music service *)

Section MusicFacts.

Context (partial_ratio : string → string → Z) (lower : string → string).
Context (disk : option (list VideoData)).

Local Abbreviation find_and_recommend_music_by_desc :=
  (Music.find_and_recommend_music_by_desc partial_ratio lower disk).
Local Abbreviation get_random_music_recommendation :=
  (Music.get_random_music_recommendation disk).
Local Abbreviation match_in_unplayed := (Music.match_in_unplayed partial_ratio lower).
Local Abbreviation best_match_loop := (Music.best_match_loop partial_ratio lower).
Local Abbreviation best_score_for_video := (Music.best_score_for_video partial_ratio lower).

Lemma inv_unfold (st : Music.state) :
  Music.inv st ↔
  NoDup (Music._unplayed_videos st)
  ∧ (∀ r, r ∈ Music._unplayed_videos st → (r < length (Music._all_available_videos st))%nat)
  ∧ (∀ r, (r < length (Music._all_available_videos st))%nat →
          r ∈ Music._unplayed_videos st
          ↔ played (Music._all_available_videos st !!! r) = false).
Proof.
  unfold Music.inv. rewrite !Forall_forall.
  split; intros (Hnd & Hb & Hf); (split; [done | split; [done |]]).
  - intros r Hr. apply Hf, elem_of_seq. lia.
  - intros r Hr%elem_of_seq. apply Hf. lia.
Qed.

Lemma inv_initial : Music.inv Music.initial.
Proof.
  apply inv_unfold. simpl. split; [constructor |].
  split; [by intros r ?%elem_of_nil | intros r Hr; simpl in Hr; lia].
Qed.

Lemma inv_load (st : Music.state) :
  Music.inv st → Music.inv (Music._load_videos_data disk st).
Proof.
  intros Hinv. unfold Music._load_videos_data.
  destruct (Music._all_available_videos st) eqn:Hall; [| done].
  destruct disk as [raw_data |]; [| done].
  apply inv_unfold. simpl. split; [| split].
  - apply NoDup_filter, NoDup_seq.
  - intros r [_ Hr%elem_of_seq]%list_elem_of_filter. lia.
  - intros r Hr. rewrite list_elem_of_filter, elem_of_seq. intuition lia.
Qed.

Lemma inv_reset (st : Music.state) : Music.inv (Music.reset st) ∧ Music.full (Music.reset st).
Proof.
  split; [| unfold Music.full; simpl; by rewrite length_fmap].
  apply inv_unfold. simpl. rewrite length_fmap. split; [apply NoDup_seq |]. split.
  - intros r Hr%elem_of_seq. lia.
  - intros r Hr. rewrite elem_of_seq.
    rewrite (list_lookup_total_fmap (Music.set_played false)) by done.
    simpl. intuition lia.
Qed.

(** Under the invariant, [remove] finds the chosen object and no other:
    every other unplayed object differs from it in its [played] flag. *)
Lemma mark_and_remove_chosen (chosen : nat) (st : Music.state) :
  Music.inv st → chosen ∈ Music._unplayed_videos st →
  ∃ l1 l2,
    Music._unplayed_videos st = l1 ++ chosen :: l2
    ∧ Music.mark_and_remove chosen st
      = (Return (),
         Music.mkState (alter (Music.set_played true) chosen (Music._all_available_videos st))
                       (l1 ++ l2)).
Proof.
  intros (Hnd & Hb & Hf)%inv_unfold Hin.
  destruct (list_elem_of_split _ _ Hin) as (l1 & l2 & Hsplit).
  exists l1, l2. split; [done |].
  unfold Music.mark_and_remove. rewrite Hsplit.
  rewrite remove_middle; [done | |].
  - rewrite Hsplit in Hnd, Hb, Hf.
    apply Forall_forall. intros y Hy.
    assert (y ≠ chosen) as Hne.
    { intros ->. apply NoDup_app in Hnd as (_ & Hnd & _). apply (Hnd chosen Hy). left. }
    assert (y < length (Music._all_available_videos st))%nat as Hylt
      by (apply Hb, elem_of_app; by left).
    assert (chosen < length (Music._all_available_videos st))%nat as Hclt
      by (apply Hb, elem_of_app; right; left).
    unfold Music.same_video. rewrite bool_decide_eq_false_2 by done. simpl.
    apply bool_decide_eq_false_2. intros Heq.
    rewrite list_lookup_total_alter_ne in Heq by done.
    rewrite list_lookup_total_alter_eq in Heq by done.
    assert (played (Music._all_available_videos st !!! y) = false) as Hp
      by (apply Hf; [done | apply elem_of_app; by left]).
    rewrite Heq in Hp. done.
  - unfold Music.same_video. by rewrite bool_decide_eq_true_2.
Qed.

Lemma inv_mark_and_remove (chosen : nat) (st : Music.state) :
  Music.inv st → chosen ∈ Music._unplayed_videos st →
  Music.inv (Music.mark_and_remove chosen st).2.
Proof.
  intros Hinv Hin.
  destruct (mark_and_remove_chosen chosen st Hinv Hin) as (l1 & l2 & Hsplit & ->).
  apply inv_unfold in Hinv as (Hnd & Hb & Hf). rewrite Hsplit in Hnd, Hb, Hf.
  apply inv_unfold. simpl. rewrite length_alter.
  assert (chosen ∉ l1 ++ l2) as Hnotin.
  { apply NoDup_app in Hnd as (_ & Hd & Hnd2). apply NoDup_cons in Hnd2 as [Hn2 _].
    intros [H1 | H2]%elem_of_app; [| done]. apply (Hd chosen H1). left. }
  split; [| split].
  - apply NoDup_app in Hnd as (Hnd1 & Hd & Hnd2). apply NoDup_cons in Hnd2 as [_ Hnd2].
    apply NoDup_app. split; [done |]. split; [| done].
    intros x Hx1 Hx2. apply (Hd x Hx1). by right.
  - intros r Hr. apply Hb. rewrite elem_of_app, elem_of_cons.
    apply elem_of_app in Hr. tauto.
  - intros r Hr. destruct (decide (r = chosen)) as [-> | Hne].
    + rewrite list_lookup_total_alter_eq by done. simpl. split; [done | done].
    + rewrite list_lookup_total_alter_ne by done. rewrite <- Hf by done.
      rewrite !elem_of_app, elem_of_cons. tauto.
Qed.

Lemma best_match_loop_elem_of weather_desc heap videos best_match best_score x s :
  best_match_loop weather_desc heap videos best_match best_score = Return (Some x, s) →
  x ∈ videos ∨ best_match = Some x.
Proof.
  revert best_match best_score.
  induction videos as [|video rest IH]; intros best_match best_score; simpl.
  - intros [= -> _]. by right.
  - destruct (Music.best_score_for_video _ _ _ _) as [s' | e]; [| done].
    destruct (best_score <? s').
    + intros [Hin | [= ->]]%IH; left; [by right | left].
    + intros [Hin | ->]%IH; [left; by right | by right].
Qed.

Lemma inv_match_in_unplayed weather_desc (st : Music.state) :
  Music.inv st → Music.inv (match_in_unplayed weather_desc st).2.
Proof.
  intros Hinv. unfold Music.match_in_unplayed.
  destruct (Music.best_match_loop _ _ _ _ _ _ _) as [[[x |] s] | e] eqn:Hloop; [| done | done].
  destruct (70 <=? s); [| done].
  apply best_match_loop_elem_of in Hloop as [Hin | ?]; [| done].
  pose proof (inv_mark_and_remove x st Hinv Hin) as Hinv'.
  by destruct (Music.mark_and_remove x st) as [[[] | e] st'].
Qed.

Lemma inv_choose_in_unplayed draw (st : Music.state) :
  Music.inv st → Music.inv (Music.choose_in_unplayed draw st).2.
Proof.
  intros Hinv. unfold Music.choose_in_unplayed.
  destruct (Music._unplayed_videos st) as [|r rest] eqn:Hun; [done |].
  destruct (choice_elem_of draw (r :: rest)) as (x & -> & Hin); [done |].
  rewrite <- Hun in Hin.
  pose proof (inv_mark_and_remove x st Hinv Hin) as Hinv'.
  by destruct (Music.mark_and_remove x st) as [[[] | e] st'].
Qed.

Lemma inv_ensure_loaded (st : Music.state) :
  Music.inv st → Music.inv (Music.ensure_loaded disk st).
Proof.
  intros Hinv. unfold Music.ensure_loaded.
  destruct (Music._all_available_videos st); [by apply inv_load | done].
Qed.

Lemma inv_find_and_recommend depth weather_desc (st : Music.state) :
  Music.inv st → Music.inv (find_and_recommend_music_by_desc depth weather_desc st).2.
Proof.
  revert st. induction depth as [|depth IH]; intros st Hinv; simpl; [done |].
  apply inv_ensure_loaded in Hinv.
  destruct (Music.ensure_loaded disk st) as [all unplayed].
  destruct all as [|v all]; [done |]. simpl.
  destruct unplayed as [|r unplayed].
  - apply IH, inv_reset.
  - by apply inv_match_in_unplayed.
Qed.

Lemma inv_get_random depth draw (st : Music.state) :
  Music.inv st → Music.inv (get_random_music_recommendation depth draw st).2.
Proof.
  revert st. induction depth as [|depth IH]; intros st Hinv; simpl; [done |].
  apply inv_ensure_loaded in Hinv.
  destruct (Music.ensure_loaded disk st) as [all unplayed].
  destruct all as [|v all]; [done |]. simpl.
  destruct unplayed as [|r unplayed].
  - apply IH, inv_reset.
  - by apply inv_choose_in_unplayed.
Qed.

(** *** The recursion against the guarded form *)

Lemma ensure_loaded_loaded (st : Music.state) :
  Music._all_available_videos st ≠ [] → Music.ensure_loaded disk st = st.
Proof. unfold Music.ensure_loaded. by destruct (Music._all_available_videos st). Qed.

Lemma get_random_guarded depth draw (st : Music.state) :
  (2 ≤ depth)%nat → Music._all_available_videos st ≠ [] →
  get_random_music_recommendation depth draw st = Music.serve_random_guarded draw st.
Proof.
  intros Hdepth Hall. destruct depth as [|[|depth]]; [lia | lia |].
  unfold Music.serve_random_guarded, Music.refill_if_empty.
  cbn [Music.get_random_music_recommendation].
  rewrite ensure_loaded_loaded by done.
  destruct st as [[|v all] unplayed]; [done |]. simpl.
  destruct unplayed as [|r unplayed]; done.
Qed.

Lemma find_and_recommend_guarded depth weather_desc (st : Music.state) :
  (2 ≤ depth)%nat → Music._all_available_videos st ≠ [] →
  find_and_recommend_music_by_desc depth weather_desc st
  = Music.serve_by_match_guarded partial_ratio lower weather_desc st.
Proof.
  intros Hdepth Hall. destruct depth as [|[|depth]]; [lia | lia |].
  unfold Music.serve_by_match_guarded, Music.refill_if_empty.
  cbn [Music.find_and_recommend_music_by_desc].
  rewrite ensure_loaded_loaded by done.
  destruct st as [[|v all] unplayed]; [done |]. simpl.
  destruct unplayed as [|r unplayed]; done.
Qed.

(** *** Random serving *)

Lemma remove_elem_of {A : Type} (same : A → A → bool) (x : A) (l : list A) :
  x ∈ l → same x x = true → ∃ l', Py.remove same x l = Return l'.
Proof.
  intros Hin Hx. induction l as [|y l IH]; [by apply elem_of_nil in Hin |].
  simpl. destruct (same y x) eqn:Hy; [by eexists |].
  apply elem_of_cons in Hin as [-> | Hin]; [congruence |].
  destruct (IH Hin) as [l' ->]. by eexists.
Qed.

(** Whatever the state, a call on a non-empty unplayed list returns one of
    the listed videos. *)
Lemma choose_in_unplayed_returns draw (st : Music.state) :
  Music._unplayed_videos st ≠ [] →
  ∃ x, x ∈ Music._unplayed_videos st
       ∧ (Music.choose_in_unplayed draw st).1
         = Return (Some (Music.random_message
                           (alter (Music.set_played true) x
                                  (Music._all_available_videos st) !!! x))).
Proof.
  intros Hne. unfold Music.choose_in_unplayed.
  destruct (choice_elem_of draw _ Hne) as (x & Hx & Hin).
  destruct (Music._unplayed_videos st) as [|r rest] eqn:Hun; [done |].
  rewrite Hx. exists x. split; [done |].
  unfold Music.mark_and_remove. rewrite Hun.
  destruct (remove_elem_of
              (Music.same_video (alter (Music.set_played true) x
                                       (Music._all_available_videos st)))
              x (r :: rest) Hin) as [l' ->]; [| done].
  unfold Music.same_video. by rewrite bool_decide_eq_true_2.
Qed.

Lemma choose_in_unplayed_inv draw (st : Music.state) :
  Music.inv st → Music._unplayed_videos st ≠ [] →
  ∃ x l1 l2,
    Music._unplayed_videos st = l1 ++ x :: l2
    ∧ Music.choose_in_unplayed draw st
      = (Return (Some (Music.random_message (Music._all_available_videos st !!! x))),
         Music.mkState (alter (Music.set_played true) x (Music._all_available_videos st))
                       (l1 ++ l2)).
Proof.
  intros Hinv Hne. unfold Music.choose_in_unplayed.
  destruct (choice_elem_of draw _ Hne) as (x & Hx & Hin).
  destruct (mark_and_remove_chosen x st Hinv Hin) as (l1 & l2 & Hsplit & Hmark).
  exists x, l1, l2. split; [done |].
  destruct (Music._unplayed_videos st) as [|r rest] eqn:Hun; [done |].
  rewrite Hx, Hmark. simpl.
  apply inv_unfold in Hinv as (_ & Hb & _).
  rewrite list_lookup_total_alter_eq; [done |]. apply Hb. by rewrite Hun.
Qed.

Lemma unplayed_nonempty_loaded (st : Music.state) :
  Music.inv st → Music._unplayed_videos st ≠ [] → Music._all_available_videos st ≠ [].
Proof.
  intros (_ & Hb & _)%inv_unfold Hne Hall.
  destruct (Music._unplayed_videos st) as [|r rest]; [done |].
  specialize (Hb r). rewrite Hall in Hb. simpl in Hb.
  assert (r < 0)%nat by (apply Hb; left). lia.
Qed.

(** As many calls as there are unplayed videos return each of them once and
    leave the list empty. *)
Lemma consecutive_random_drain depth draws (st : Music.state) :
  (1 ≤ depth)%nat → Music.inv st →
  length draws = length (Music._unplayed_videos st) →
  ∃ recs st',
    Music.consecutive_random disk depth draws st
      = ((λ r, Return (Some r)) <$> recs, st')
    ∧ recs ≡ₚ (λ r, Music.random_message (Music._all_available_videos st !!! r))
                <$> Music._unplayed_videos st
    ∧ Music._unplayed_videos st' = []
    ∧ Music.inv st'.
Proof.
  intros Hdepth. revert st. induction draws as [|draw draws IH]; intros st Hinv Hlen.
  - exists [], st. simpl. destruct (Music._unplayed_videos st); [done | simplify_eq/=].
  - assert (Music._unplayed_videos st ≠ []) as Hne by (intros E; by rewrite E in Hlen).
    pose proof (unplayed_nonempty_loaded st Hinv Hne) as Hall.
    destruct (choose_in_unplayed_inv draw st Hinv Hne) as (x & l1 & l2 & Hsplit & Hchoose).
    pose proof (inv_choose_in_unplayed draw st Hinv) as Hinv'.
    rewrite Hchoose in Hinv'. simpl in Hinv'.
    destruct (IH _ Hinv') as (recs & st' & Hrun & Hperm & Hempty & Hinv'').
    { simpl. rewrite Hsplit in Hlen. rewrite length_app in *. simpl in Hlen. lia. }
    exists (Music.random_message (Music._all_available_videos st !!! x) :: recs), st'.
    split; [| split; [| done]].
    + destruct depth as [|depth]; [lia |].
      cbn [Music.consecutive_random Music.get_random_music_recommendation].
      rewrite ensure_loaded_loaded by done.
      destruct st as [[|v all] [|r unplayed]]; [done | done | done |].
      cbn [Music._all_available_videos Music._unplayed_videos] in *.
      rewrite Hchoose, Hrun. done.
    + rewrite Hsplit, fmap_app, fmap_cons, <- Permutation_middle, <- fmap_app.
      constructor. rewrite Hperm. simpl.
      apply inv_unfold in Hinv as (Hnd & _ & _). rewrite Hsplit in Hnd.
      apply Permutation_refl', list_fmap_ext. intros i r Hr.
      rewrite list_lookup_total_alter_ne; [done |].
      intros ->. apply list_elem_of_lookup_2 in Hr.
      apply NoDup_app in Hnd as (_ & Hd & Hnd2). apply NoDup_cons in Hnd2 as [Hn2 _].
      apply elem_of_app in Hr as [H1 | H2]; [| done]. apply (Hd r H1). left.
Qed.

Lemma fmap_lookup_total_seq {A B : Type} `{!Inhabited A} (f : A → B) (l : list A) :
  (λ r, f (l !!! r)) <$> seq 0 (length l) = f <$> l.
Proof.
  apply list_eq. intros i. rewrite !list_lookup_fmap.
  destruct (decide (i < length l)%nat) as [Hlt | Hge].
  - rewrite lookup_seq_lt by done. simpl.
    destruct (lookup_lt_is_Some_2 _ _ Hlt) as [x Hx].
    by rewrite Hx, (list_lookup_total_correct _ _ _ Hx).
  - rewrite lookup_seq_ge by lia. by rewrite lookup_ge_None_2 by lia.
Qed.

(** One cycle of the music pool: from a full or an exhausted unplayed list,
    as many calls as there are videos return every video once. *)
Lemma music_cycle depth draws (st : Music.state) :
  (2 ≤ depth)%nat → Music.inv st →
  Music._all_available_videos st ≠ [] →
  Music._unplayed_videos st = [] ∨ Music.full st →
  length draws = length (Music._all_available_videos st) →
  ∃ recs st',
    Music.consecutive_random disk depth draws st
      = ((λ r, Return (Some r)) <$> recs, st')
    ∧ recs ≡ₚ Music.random_message <$> Music._all_available_videos st.
Proof.
  intros Hdepth Hinv Hall Hstart Hlen.
  assert (∀ st0, Music.inv st0 → Music.full st0 →
            length draws = length (Music._all_available_videos st0) →
            ∃ recs st',
              Music.consecutive_random disk depth draws st0
                = ((λ r, Return (Some r)) <$> recs, st')
              ∧ recs ≡ₚ Music.random_message <$> Music._all_available_videos st0)
    as Hfull.
  { intros st0 Hinv0 Hfull0 Hlen0.
    destruct (consecutive_random_drain depth draws st0) as (recs & st' & Hrun & Hperm & _);
      [lia | done | |].
    - unfold Music.full in Hfull0. by rewrite Hfull0, length_seq.
    - exists recs, st'. split; [done |].
      rewrite Hperm. unfold Music.full in Hfull0. rewrite Hfull0.
      by rewrite fmap_lookup_total_seq. }
  destruct Hstart as [Hempty | Hfull0]; [| by apply Hfull].
  destruct (inv_reset st) as [Hinvr Hfullr].
  destruct (Hfull (Music.reset st) Hinvr Hfullr) as (recs & st' & Hrun & Hperm).
  { simpl. by rewrite length_fmap. }
  exists recs, st'. split.
  - rewrite <- Hrun. destruct draws as [|draw draws]; [by destruct (Music._all_available_videos st) |].
    cbn [Music.consecutive_random].
    rewrite (get_random_guarded depth draw st) by done.
    rewrite (get_random_guarded depth draw (Music.reset st)).
    + unfold Music.serve_random_guarded, Music.refill_if_empty. rewrite Hempty.
      simpl. by destruct (Music._all_available_videos st).
    + done.
    + simpl. by destruct (Music._all_available_videos st).
  - rewrite Hperm. simpl. rewrite <- list_fmap_compose. done.
Qed.

Lemma ensure_loaded_idemp (st : Music.state) :
  Music.ensure_loaded disk (Music.ensure_loaded disk st) = Music.ensure_loaded disk st.
Proof.
  unfold Music.ensure_loaded, Music._load_videos_data.
  destruct (Music._all_available_videos st) as [|v all] eqn:Hall.
  - destruct disk as [[|v raw] |]; simpl; [done | done |]. by rewrite Hall.
  - by rewrite Hall.
Qed.

(** A call on a loaded, non-empty universe returns a video of the universe. *)
Lemma music_random_returns depth draw (st : Music.state) :
  (2 ≤ depth)%nat → Music.inv st →
  Music._all_available_videos (Music.ensure_loaded disk st) ≠ [] →
  ∃ r, (r < length (Music._all_available_videos (Music.ensure_loaded disk st)))%nat
       ∧ (get_random_music_recommendation depth draw st).1
         = Return (Some (Music.random_message
                           (Music._all_available_videos (Music.ensure_loaded disk st) !!! r))).
Proof.
  intros Hdepth Hinv Hall.
  assert (get_random_music_recommendation depth draw st
          = get_random_music_recommendation depth draw (Music.ensure_loaded disk st)) as ->.
  { destruct depth as [|depth]; [lia |]. simpl. by rewrite ensure_loaded_idemp. }
  apply inv_ensure_loaded in Hinv.
  set (st1 := Music.ensure_loaded disk st) in *. clearbody st1.
  rewrite get_random_guarded by done.
  unfold Music.serve_random_guarded, Music.refill_if_empty.
  destruct (Music._unplayed_videos st1) as [|r0 unplayed] eqn:Hun.
  - destruct (inv_reset st1) as [Hinvr _].
    destruct (choose_in_unplayed_inv draw (Music.reset st1) Hinvr)
      as (x & l1 & l2 & Hsplit & ->).
    { simpl. by destruct (Music._all_available_videos st1). }
    assert (x ∈ seq 0 (length (Music._all_available_videos st1))) as Hx%elem_of_seq.
    { simpl in Hsplit. rewrite Hsplit, elem_of_app. right. left. }
    exists x. split; [lia |]. simpl.
    rewrite (list_lookup_total_fmap (Music.set_played false)) by lia. done.
  - destruct (choose_in_unplayed_inv draw st1 Hinv) as (x & l1 & l2 & Hsplit & ->).
    { by rewrite Hun. }
    exists x. split; [| done].
    apply inv_unfold in Hinv as (_ & Hb & _). apply Hb.
    rewrite Hsplit, elem_of_app. right. left.
Qed.

(** *** Matched serving *)

(** What the scan returns when every scanned video has a score: either
    nothing beat the starting score, or the winner is the first video of
    greatest score. *)
Lemma best_match_loop_spec weather_desc heap videos best_match best_score :
  Forall (λ r, ∃ s, best_score_for_video weather_desc (heap !!! r) = Return s) videos →
  ∃ best_match' best_score',
    best_match_loop weather_desc heap videos best_match best_score
      = Return (best_match', best_score')
    ∧ ((best_match' = best_match ∧ best_score' = best_score
        ∧ Forall (λ r, ∀ s, best_score_for_video weather_desc (heap !!! r) = Return s
                            → s ≤ best_score) videos)
       ∨ (∃ l1 x l2,
            videos = l1 ++ x :: l2
            ∧ best_match' = Some x
            ∧ best_score_for_video weather_desc (heap !!! x) = Return best_score'
            ∧ best_score < best_score'
            ∧ Forall (λ r, ∀ s, best_score_for_video weather_desc (heap !!! r) = Return s
                                → s < best_score') l1
            ∧ Forall (λ r, ∀ s, best_score_for_video weather_desc (heap !!! r) = Return s
                                → s ≤ best_score') l2)).
Proof.
  intros Hscored. revert best_match best_score.
  induction Hscored as [|video rest [s Hs] _ IH]; intros best_match best_score.
  - exists best_match, best_score. split; [done |]. left. by split_and!.
  - cbn [Music.best_match_loop]. rewrite Hs.
    destruct (Z.ltb_spec best_score s) as [Hlt | Hge].
    + destruct (IH (Some video) s) as (bm & bs & -> & Hcases).
      exists bm, bs. split; [done |]. right.
      destruct Hcases as [(-> & -> & Hall) | (l1 & x & l2 & -> & -> & Hx & Hbs & H1 & H2)].
      * exists [], video, rest. split_and!; try done.
      * exists (video :: l1), x, l2. split_and!; try done; [lia |].
        constructor; [| done]. intros s' Hs'. rewrite Hs in Hs'. simplify_eq. lia.
    + destruct (IH best_match best_score) as (bm & bs & -> & Hcases).
      exists bm, bs. split; [done |].
      destruct Hcases as [(-> & -> & Hall) | (l1 & x & l2 & -> & -> & Hx & Hbs & H1 & H2)].
      * left. split_and!; try done.
        constructor; [| done]. intros s' Hs'. rewrite Hs in Hs'. simplify_eq. lia.
      * right. exists (video :: l1), x, l2. split_and!; try done.
        constructor; [| done]. intros s' Hs'. rewrite Hs in Hs'. simplify_eq. lia.
Qed.

Lemma py_max_lower_bound (x : Z) (l : list Z) (b : Z) :
  Forall (λ y, b ≤ y) (x :: l) → b ≤ foldl Z.max x l.
Proof.
  revert x. induction l as [|y l IH]; intros x Hall; simpl.
  - by apply Forall_cons in Hall as [? _].
  - apply IH. apply Forall_cons in Hall as [Hx Hall]. apply Forall_cons in Hall as [Hy Hall].
    constructor; [lia | done].
Qed.

Lemma best_score_for_video_tagged weather_desc (v : VideoData) :
  (∀ a b, 0 ≤ partial_ratio a b) →
  matched_weather_descriptions v ≠ [] →
  ∃ s, best_score_for_video weather_desc v = Return s ∧ 0 ≤ s.
Proof.
  intros Hrange Htags. unfold Music.best_score_for_video.
  destruct (matched_weather_descriptions v) as [|d tags]; [done |].
  simpl. eexists. split; [done |].
  apply py_max_lower_bound. apply Forall_forall. intros y Hy.
  apply elem_of_cons in Hy as [-> | Hy]; [apply Hrange |].
  apply list_elem_of_fmap in Hy as (d' & -> & _). apply Hrange.
Qed.

(** The matched serve on a non-empty unplayed list all of whose videos carry
    a tag: the winner is the first video of greatest score; at 70 or more it
    is marked, removed and returned, below 70 nothing changes. *)
Lemma match_in_unplayed_tagged weather_desc (st : Music.state) :
  (∀ a b, 0 ≤ partial_ratio a b) →
  Music.inv st →
  Music._unplayed_videos st ≠ [] →
  Forall (λ r, matched_weather_descriptions (Music._all_available_videos st !!! r) ≠ [])
         (Music._unplayed_videos st) →
  ∃ l1 x l2 best_score,
    Music._unplayed_videos st = l1 ++ x :: l2
    ∧ best_score_for_video weather_desc (Music._all_available_videos st !!! x)
      = Return best_score
    ∧ Forall (λ r, ∀ s, best_score_for_video weather_desc
                          (Music._all_available_videos st !!! r) = Return s
                        → s < best_score) l1
    ∧ Forall (λ r, ∀ s, best_score_for_video weather_desc
                          (Music._all_available_videos st !!! r) = Return s
                        → s ≤ best_score) l2
    ∧ match_in_unplayed weather_desc st
      = if 70 <=? best_score
        then (Return (Some (Music.matched_message weather_desc
                              (Music._all_available_videos st !!! x))),
              Music.mkState
                (alter (Music.set_played true) x (Music._all_available_videos st))
                (l1 ++ l2))
        else (Return None, st).
Proof.
  intros Hrange Hinv Hne Htagged.
  assert (Forall (λ r, ∃ s, best_score_for_video weather_desc
                              (Music._all_available_videos st !!! r) = Return s)
                 (Music._unplayed_videos st)) as Hscored.
  { eapply Forall_impl; [exact Htagged |]. intros r Hr. simpl in Hr.
    destruct (best_score_for_video_tagged weather_desc _ Hrange Hr) as (s & Hs & _).
    by exists s. }
  destruct (best_match_loop_spec weather_desc _ _ None (-1) Hscored)
    as (bm & bs & Hloop & Hcases).
  destruct Hcases as [(-> & -> & Hall) | (l1 & x & l2 & Hsplit & -> & Hx & Hbs & H1 & H2)].
  { destruct (Music._unplayed_videos st) as [|r rest]; [done |].
    apply Forall_cons in Hall as [Hr _]. apply Forall_cons in Htagged as [Ht _].
    destruct (best_score_for_video_tagged weather_desc _ Hrange Ht) as (s & Hs & Hs0).
    specialize (Hr s Hs). lia. }
  exists l1, x, l2, bs. split_and!; try done.
  unfold Music.match_in_unplayed. rewrite Hloop.
  destruct (70 <=? bs); [| done].
  assert (x ∈ Music._unplayed_videos st) as Hin
    by (rewrite Hsplit, elem_of_app; right; left).
  destruct (mark_and_remove_chosen x st Hinv Hin) as (l1' & l2' & Hsplit' & ->).
  assert (l1' = l1 ∧ l2' = l2) as [-> ->].
  { apply inv_unfold in Hinv as (Hnd & _ & _). rewrite Hsplit in Hnd, Hsplit'.
    by apply (NoDup_split_unique x). }
  simpl. apply inv_unfold in Hinv as (_ & Hb & _).
  rewrite list_lookup_total_alter_eq by (by apply Hb).
  done.
Qed.

(** A NoMatch leaves the state as it was once the refill, if any, is done. *)
Lemma match_in_unplayed_none weather_desc (st : Music.state) :
  (match_in_unplayed weather_desc st).1 = Return None →
  (match_in_unplayed weather_desc st).2 = st.
Proof.
  unfold Music.match_in_unplayed.
  destruct (Music.best_match_loop _ _ _ _ _ _ _) as [[[x |] s] | e]; [| done | done].
  destruct (70 <=? s); [| done].
  by destruct (Music.mark_and_remove x st) as [[[] | e] st'].
Qed.

End MusicFacts.

(** ** The movie service *)

Section MovieFacts.

Context (lower splitext_root quote url_for : string → string).
Context (listing : option (list string)).

Local Abbreviation get_random_movie_poster :=
  (Movie.get_random_movie_poster lower splitext_root quote url_for listing).
Local Abbreviation choose_in_unrecommended :=
  (Movie.choose_in_unrecommended splitext_root quote url_for).
Local Abbreviation recommendation := (Movie.recommendation splitext_root quote url_for).
Local Abbreviation ensure_loaded := (Movie.ensure_loaded lower listing).
Local Abbreviation consecutive_random :=
  (Movie.consecutive_random lower splitext_root quote url_for listing).

Lemma remove_string (x : string) (l : list string) :
  x ∈ l → ∃ l1 l2, l = l1 ++ x :: l2 ∧ Py.remove String.eqb x l = Return (l1 ++ l2).
Proof.
  intros (l1 & l2 & -> & Hnotin)%list_elem_of_split_l.
  exists l1, l2. split; [done |]. apply remove_middle.
  - apply Forall_forall. intros y Hy. apply String.eqb_neq. by intros ->.
  - apply String.eqb_refl.
Qed.

Lemma choose_in_unrecommended_spec draw (st : Movie.state) :
  Movie._unrecommended_posters st ≠ [] →
  ∃ x l1 l2,
    Movie._unrecommended_posters st = l1 ++ x :: l2
    ∧ choose_in_unrecommended draw st
      = (Return (Some (recommendation x)),
         Movie.mkState (Movie._all_movie_posters st) (l1 ++ l2)).
Proof.
  intros Hne. unfold Movie.choose_in_unrecommended.
  destruct (choice_elem_of draw _ Hne) as (x & Hx & Hin).
  destruct (remove_string x _ Hin) as (l1 & l2 & Hsplit & Hrem).
  exists x, l1, l2. split; [done |].
  destruct (Movie._unrecommended_posters st) as [|f rest] eqn:Hun; [done |].
  by rewrite Hx, Hrem.
Qed.

Lemma movie_ensure_loaded_loaded (st : Movie.state) :
  Movie._all_movie_posters st ≠ [] → ensure_loaded st = st.
Proof. unfold Movie.ensure_loaded. by destruct (Movie._all_movie_posters st). Qed.

Lemma movie_ensure_loaded_idemp (st : Movie.state) :
  ensure_loaded (ensure_loaded st) = ensure_loaded st.
Proof.
  unfold Movie.ensure_loaded, Movie._load_movie_posters.
  destruct (Movie._all_movie_posters st) as [|f all] eqn:Hall.
  - destruct listing as [files |]; simpl; [| by rewrite Hall].
    by destruct (filter _ files).
  - by rewrite Hall.
Qed.

Lemma get_random_movie_guarded depth draw (st : Movie.state) :
  (2 ≤ depth)%nat → Movie._all_movie_posters st ≠ [] →
  get_random_movie_poster depth draw st
  = Movie.serve_random_guarded splitext_root quote url_for draw st.
Proof.
  intros Hdepth Hall. destruct depth as [|[|depth]]; [lia | lia |].
  unfold Movie.serve_random_guarded, Movie.refill_if_empty.
  cbn [Movie.get_random_movie_poster].
  rewrite movie_ensure_loaded_loaded by done.
  destruct st as [[|f all] unrecommended]; [done |]. simpl.
  destruct unrecommended as [|g unrecommended]; done.
Qed.

Lemma movie_drain depth draws (st : Movie.state) :
  (1 ≤ depth)%nat → Movie._all_movie_posters st ≠ [] →
  length draws = length (Movie._unrecommended_posters st) →
  ∃ recs st',
    consecutive_random depth draws st = ((λ r, Return (Some r)) <$> recs, st')
    ∧ recs ≡ₚ recommendation <$> Movie._unrecommended_posters st
    ∧ Movie._unrecommended_posters st' = [].
Proof.
  intros Hdepth. revert st. induction draws as [|draw draws IH]; intros st Hall Hlen.
  - exists [], st. simpl. destruct (Movie._unrecommended_posters st); [done | simplify_eq/=].
  - assert (Movie._unrecommended_posters st ≠ []) as Hne by (intros E; by rewrite E in Hlen).
    destruct (choose_in_unrecommended_spec draw st Hne) as (x & l1 & l2 & Hsplit & Hchoose).
    destruct (IH (Movie.mkState (Movie._all_movie_posters st) (l1 ++ l2)))
      as (recs & st' & Hrun & Hperm & Hempty); [done | |].
    { simpl. rewrite Hsplit in Hlen. rewrite length_app in *. simpl in Hlen. lia. }
    exists (recommendation x :: recs), st'. split; [| split; [| done]].
    + destruct depth as [|depth]; [lia |].
      cbn [Movie.consecutive_random Movie.get_random_movie_poster].
      rewrite movie_ensure_loaded_loaded by done.
      destruct st as [[|f all] [|g unrecommended]]; [done | done | done |].
      cbn [Movie._all_movie_posters Movie._unrecommended_posters] in *.
      by rewrite Hchoose, Hrun.
    + rewrite Hsplit, fmap_app, fmap_cons, <- Permutation_middle, <- fmap_app.
      constructor. by rewrite Hperm.
Qed.

(** One cycle of the poster pool. *)
Lemma movie_cycle depth draws (st : Movie.state) :
  (2 ≤ depth)%nat → Movie._all_movie_posters st ≠ [] →
  Movie._unrecommended_posters st = [] ∨ Movie.full st →
  length draws = length (Movie._all_movie_posters st) →
  ∃ recs st',
    consecutive_random depth draws st = ((λ r, Return (Some r)) <$> recs, st')
    ∧ recs ≡ₚ recommendation <$> Movie._all_movie_posters st.
Proof.
  intros Hdepth Hall Hstart Hlen.
  assert (∀ st0, Movie._all_movie_posters st0 ≠ [] → Movie.full st0 →
            length draws = length (Movie._all_movie_posters st0) →
            ∃ recs st',
              consecutive_random depth draws st0 = ((λ r, Return (Some r)) <$> recs, st')
              ∧ recs ≡ₚ recommendation <$> Movie._all_movie_posters st0) as Hfull.
  { intros st0 Hall0 Hfull0 Hlen0. unfold Movie.full in Hfull0.
    destruct (movie_drain depth draws st0) as (recs & st' & Hrun & Hperm & _);
      [lia | done | by rewrite Hfull0 |].
    exists recs, st'. split; [done |]. by rewrite Hperm, Hfull0. }
  destruct Hstart as [Hempty | Hfull0]; [| by apply Hfull].
  destruct (Hfull (Movie.mkState (Movie._all_movie_posters st) (Movie._all_movie_posters st)))
    as (recs & st' & Hrun & Hperm); [done | by unfold Movie.full | done |].
  exists recs, st'. split; [| done].
  rewrite <- Hrun. destruct draws as [|draw draws]; [by destruct (Movie._all_movie_posters st) |].
  cbn [Movie.consecutive_random].
  rewrite (get_random_movie_guarded depth draw st) by done.
  rewrite (get_random_movie_guarded depth draw (Movie.mkState _ _)) by done.
  unfold Movie.serve_random_guarded, Movie.refill_if_empty. rewrite Hempty.
  simpl. by destruct (Movie._all_movie_posters st).
Qed.

(** A call on a non-empty poster directory returns a poster of it. *)
Lemma movie_random_returns depth draw (st : Movie.state) :
  (2 ≤ depth)%nat →
  Movie._unrecommended_posters st ⊆ Movie._all_movie_posters st →
  Movie._all_movie_posters (ensure_loaded st) ≠ [] →
  ∃ f, f ∈ Movie._all_movie_posters (ensure_loaded st)
       ∧ (get_random_movie_poster depth draw st).1 = Return (Some (recommendation f)).
Proof.
  intros Hdepth Hsub Hall.
  assert (get_random_movie_poster depth draw st
          = get_random_movie_poster depth draw (ensure_loaded st)) as ->.
  { destruct depth as [|depth]; [lia |]. simpl. by rewrite movie_ensure_loaded_idemp. }
  assert (Movie._unrecommended_posters (ensure_loaded st)
          ⊆ Movie._all_movie_posters (ensure_loaded st)) as Hsub1.
  { unfold Movie.ensure_loaded, Movie._load_movie_posters.
    destruct (Movie._all_movie_posters st) eqn:E; [| by rewrite ?E].
    destruct listing; simpl; [done | by rewrite E]. }
  set (st1 := ensure_loaded st) in *. clearbody st1.
  rewrite get_random_movie_guarded by done.
  unfold Movie.serve_random_guarded, Movie.refill_if_empty.
  destruct (Movie._unrecommended_posters st1) as [|g unrecommended] eqn:Hun.
  - destruct (choose_in_unrecommended_spec draw
                (Movie.mkState (Movie._all_movie_posters st1) (Movie._all_movie_posters st1)))
      as (x & l1 & l2 & Hsplit & ->); [done |].
    exists x. split; [| done]. simpl in Hsplit. rewrite Hsplit, elem_of_app. right. left.
  - destruct (choose_in_unrecommended_spec draw st1) as (x & l1 & l2 & Hsplit & ->).
    { by rewrite Hun. }
    exists x. split; [| done]. apply Hsub1. rewrite Hun in Hsplit.
    rewrite Hsplit, elem_of_app. right. left.
Qed.

End MovieFacts.

(** ** The claims about the two pools *)

Section PoolClaims.

Context (partial_ratio : string → string → Z) (lower : string → string).
Context (disk : option (list VideoData)).
Context (splitext_root quote url_for : string → string).
Context (listing : option (list string)).

(** C1.  A pool with a non-empty universe never answers a random serve with
    NoMatch, and one cycle, that is as many consecutive random serves as the
    universe has items, started with the remaining list full or exhausted,
    returns every item of the universe exactly once.  More generally, from
    any state the next serves, as many as there are remaining items, return
    exactly the remaining items, each once, and exhaust the list: no item
    comes back before the refill.  Both for the music pool
    ([get_random_music_recommendation]) and for the poster pool
    ([get_random_movie_poster]). *)
Theorem serve_random_cycle (depth : nat) (music_draws movie_draws : list nat)
    (music : Music.state) (movie : Movie.state) :
  (2 ≤ depth)%nat →
  Music.inv music →
  Music._all_available_videos music ≠ [] →
  Music._unplayed_videos music = [] ∨ Music.full music →
  length music_draws = length (Music._all_available_videos music) →
  Movie._all_movie_posters movie ≠ [] →
  Movie._unrecommended_posters movie = [] ∨ Movie.full movie →
  length movie_draws = length (Movie._all_movie_posters movie) →
  (∃ recs st',
     Music.consecutive_random disk depth music_draws music
       = ((λ r, Return (Some r)) <$> recs, st')
     ∧ recs ≡ₚ Music.random_message <$> Music._all_available_videos music)
  ∧ (∃ recs st',
       Movie.consecutive_random lower splitext_root quote url_for listing
         depth movie_draws movie
         = ((λ r, Return (Some r)) <$> recs, st')
       ∧ recs ≡ₚ Movie.recommendation splitext_root quote url_for
                   <$> Movie._all_movie_posters movie)
  ∧ (∀ draw st,
       Music.inv st →
       Music._all_available_videos (Music.ensure_loaded disk st) ≠ [] →
       ∃ r, (r < length (Music._all_available_videos (Music.ensure_loaded disk st)))%nat
            ∧ (Music.get_random_music_recommendation disk depth draw st).1
              = Return (Some (Music.random_message
                                (Music._all_available_videos
                                   (Music.ensure_loaded disk st) !!! r))))
  ∧ (∀ draw st,
       Movie._unrecommended_posters st ⊆ Movie._all_movie_posters st →
       Movie._all_movie_posters (Movie.ensure_loaded lower listing st) ≠ [] →
       ∃ f, f ∈ Movie._all_movie_posters (Movie.ensure_loaded lower listing st)
            ∧ (Movie.get_random_movie_poster lower splitext_root quote url_for listing
                 depth draw st).1
              = Return (Some (Movie.recommendation splitext_root quote url_for f)))
  ∧ (∀ draws st,
       Music.inv st →
       length draws = length (Music._unplayed_videos st) →
       ∃ recs st',
         Music.consecutive_random disk depth draws st
           = ((λ r, Return (Some r)) <$> recs, st')
         ∧ recs ≡ₚ (λ r, Music.random_message (Music._all_available_videos st !!! r))
                     <$> Music._unplayed_videos st
         ∧ Music._unplayed_videos st' = [])
  ∧ (∀ draws st,
       Movie._all_movie_posters st ≠ [] →
       length draws = length (Movie._unrecommended_posters st) →
       ∃ recs st',
         Movie.consecutive_random lower splitext_root quote url_for listing depth draws st
           = ((λ r, Return (Some r)) <$> recs, st')
         ∧ recs ≡ₚ Movie.recommendation splitext_root quote url_for
                     <$> Movie._unrecommended_posters st
         ∧ Movie._unrecommended_posters st' = []).
Proof.
  intros Hdepth Hinv Hall Hstart Hlen Hposters Hpstart Hplen.
  split_and!.
  - by apply music_cycle.
  - by apply movie_cycle.
  - intros draw st Hinvst Hne. by apply music_random_returns.
  - intros draw st Hsub Hne. by apply movie_random_returns.
  - intros draws st Hinvst Hdraws.
    destruct (consecutive_random_drain disk depth draws st)
      as (recs & st' & Hrun & Hperm & Hempty & _); [lia | done | done |].
    by exists recs, st'.
  - intros draws st Hne Hdraws. apply movie_drain; [lia | done | done].
Qed.

(** C4.  On a non-empty universe the recursive control flow (reset on
    exhaustion, then call the same function again) computes exactly what the
    non-recursive form computes (refill if the remaining list is empty when
    the call starts, then proceed): same result and same final state, for
    the random serve of both pools and for the matched serve.  Two frames are
    enough, so no call makes more than one recursive call, and a random serve
    on an exhausted pool completes with an item. *)
Theorem recursion_is_refill_guard (depth draw : nat) (weather_desc : string)
    (music : Music.state) (movie : Movie.state) :
  (2 ≤ depth)%nat →
  Music._all_available_videos music ≠ [] →
  Movie._all_movie_posters movie ≠ [] →
  Music.get_random_music_recommendation disk depth draw music
    = Music.serve_random_guarded draw music
  ∧ Music.find_and_recommend_music_by_desc partial_ratio lower disk depth weather_desc music
    = Music.serve_by_match_guarded partial_ratio lower weather_desc music
  ∧ Movie.get_random_movie_poster lower splitext_root quote url_for listing depth draw movie
    = Movie.serve_random_guarded splitext_root quote url_for draw movie
  ∧ Music.get_random_music_recommendation disk depth draw music
    = Music.get_random_music_recommendation disk 2 draw music
  ∧ Music.find_and_recommend_music_by_desc partial_ratio lower disk depth weather_desc music
    = Music.find_and_recommend_music_by_desc partial_ratio lower disk 2 weather_desc music
  ∧ Movie.get_random_movie_poster lower splitext_root quote url_for listing depth draw movie
    = Movie.get_random_movie_poster lower splitext_root quote url_for listing 2 draw movie
  ∧ (Music.inv music → Music._unplayed_videos music = [] →
     ∃ r, (Music.get_random_music_recommendation disk depth draw music).1
          = Return (Some r))
  ∧ (Movie._unrecommended_posters movie = [] →
     ∃ r, (Movie.get_random_movie_poster lower splitext_root quote url_for listing
             depth draw movie).1
          = Return (Some r)).
Proof.
  intros Hdepth Hall Hposters.
  split_and!.
  - by apply get_random_guarded.
  - by apply find_and_recommend_guarded.
  - by apply get_random_movie_guarded.
  - by rewrite !get_random_guarded.
  - by rewrite !find_and_recommend_guarded.
  - by rewrite !get_random_movie_guarded.
  - intros Hinv _.
    destruct (music_random_returns disk depth draw music Hdepth Hinv) as (r & _ & ->).
    + by rewrite ensure_loaded_loaded.
    + by eexists.
  - intros Hempty.
    destruct (movie_random_returns lower splitext_root quote url_for listing
                depth draw movie Hdepth) as (f & _ & ->).
    + rewrite Hempty. apply list_subseteq_nil.
    + by rewrite movie_ensure_loaded_loaded.
    + by eexists.
Qed.

(** C10.  Once the videos are loaded, the loader, the reset and both serve
    operations keep the unplayed list equal to the set of loaded videos
    whose [played] flag is [False] (and so a subset of the universe).  The
    invariant also says that the list holds no video twice, without which the
    equivalence would not survive a [remove]. *)
Theorem music_invariant_preserved (st : Music.state) :
  Music.inv st →
  Music.inv (Music._load_videos_data disk Music.initial)
  ∧ Music.inv (Music._load_videos_data disk st)
  ∧ Music.inv (Music.reset st)
  ∧ (∀ depth weather_desc,
       Music.inv (Music.find_and_recommend_music_by_desc
                    partial_ratio lower disk depth weather_desc st).2)
  ∧ (∀ depth draw,
       Music.inv (Music.get_random_music_recommendation disk depth draw st).2)
  ∧ (∀ r, (r < length (Music._all_available_videos st))%nat →
          r ∈ Music._unplayed_videos st
          ↔ played (Music._all_available_videos st !!! r) = false)
  ∧ (∀ r, r ∈ Music._unplayed_videos st →
          (r < length (Music._all_available_videos st))%nat).
Proof.
  intros Hinv. split_and!.
  - apply inv_load, inv_initial.
  - by apply inv_load.
  - apply inv_reset.
  - intros depth weather_desc. by apply inv_find_and_recommend.
  - intros depth draw. by apply inv_get_random.
  - by apply inv_unfold.
  - apply inv_unfold in Hinv as (_ & Hb & _). apply Hb.
Qed.

(** C2, as amended.  When [find_and_recommend_music_by_desc] returns NoMatch
    on a loaded pool whose unplayed list is non-empty when the call starts,
    the unplayed list and every [played] flag are as before the call; when
    the unplayed list is empty when the call starts, the call has refilled
    it, and a NoMatch leaves it holding the whole universe, every flag
    cleared. *)
Theorem nomatch_leaves_unplayed (depth : nat) (weather_desc : string) (st : Music.state) :
  (2 ≤ depth)%nat →
  Music._all_available_videos st ≠ [] →
  (Music.find_and_recommend_music_by_desc partial_ratio lower disk depth weather_desc st).1
    = Return None →
  (Music._unplayed_videos st ≠ [] →
   (Music.find_and_recommend_music_by_desc partial_ratio lower disk depth weather_desc st).2
     = st)
  ∧ (Music._unplayed_videos st = [] →
     (Music.find_and_recommend_music_by_desc partial_ratio lower disk depth weather_desc st).2
       = Music.reset st).
Proof.
  intros Hdepth Hall. rewrite find_and_recommend_guarded by done.
  unfold Music.serve_by_match_guarded, Music.refill_if_empty.
  intros Hnone. apply match_in_unplayed_none in Hnone. rewrite Hnone.
  by destruct (Music._unplayed_videos st).
Qed.

(** C3, at the failing input: one loaded video without tags, unplayed.  The
    [max] over its tags has nothing to take the maximum of and raises
    ValueError, whatever the query and the scorer. *)
Theorem untagged_video_raises (depth : nat) (weather_desc : string) :
  (Music.find_and_recommend_music_by_desc partial_ratio lower disk (S depth) weather_desc
     Example.loaded_untagged).1
  = Raise Py.ValueError.
Proof. reflexivity. Qed.

End PoolClaims.

Lemma serve_random_cycle_witness :
  (2 ≤ 2)%nat
  ∧ Music.inv Example.loaded
  ∧ Music.full Example.loaded
  ∧ Movie.full Example.posters
  ∧ (∃ recs st',
       Music.consecutive_random None 2 [1%nat; 0%nat] Example.loaded
         = ((λ r, Return (Some r)) <$> recs, st')
       ∧ recs ≡ₚ Music.random_message <$> [Example.sunny; Example.rainy]).
Proof.
  assert (Music.inv Example.loaded) as Hinv
    by (apply (bool_decide_unpack _); vm_compute; exact I).
  assert (Music.full Example.loaded) as Hfull by (unfold Music.full; simpl; reflexivity).
  assert (Movie.full Example.posters) as Hpfull by (unfold Movie.full; simpl; reflexivity).
  split; [lia |]. split; [exact Hinv |]. split; [exact Hfull |]. split; [exact Hpfull |].
  apply (serve_random_cycle Example.lower None id id id None
           2 [1%nat; 0%nat] [0%nat; 0%nat] Example.loaded Example.posters);
    [lia | exact Hinv | done | by right | done | done | by right | done].
Defined.

Lemma recursion_is_refill_guard_witness :
  (2 ≤ 2)%nat
  ∧ Music.get_random_music_recommendation None 2 0 Example.exhausted
    = Music.serve_random_guarded 0 Example.exhausted
  ∧ Music.find_and_recommend_music_by_desc Example.exact_ratio Example.lower None 2
      "晴天" Example.exhausted
    = Music.serve_by_match_guarded Example.exact_ratio Example.lower "晴天" Example.exhausted.
Proof.
  split; [lia |].
  pose proof (recursion_is_refill_guard Example.exact_ratio Example.lower None id id id None
                2 0 "晴天" Example.exhausted Example.posters) as H.
  destruct H as (H1 & H2 & _); [lia | done | done |].
  split; [exact H1 | exact H2].
Defined.

Lemma music_invariant_preserved_witness :
  Music.inv Example.loaded
  ∧ Music.inv (Music.get_random_music_recommendation None 2 1 Example.loaded).2.
Proof.
  assert (Music.inv Example.loaded) as Hinv
    by (apply (bool_decide_unpack _); vm_compute; exact I).
  split; [exact Hinv |].
  apply (music_invariant_preserved Example.exact_ratio Example.lower None
           Example.loaded Hinv).
Defined.

(** C2, as stated, fails on an exhausted pool: the call refills the unplayed
    list and then finds no match. *)
Lemma nomatch_after_refill_mutates :
  Music.inv Example.exhausted
  ∧ (Music.find_and_recommend_music_by_desc Example.exact_ratio Example.lower None 2
       "晴天" Example.exhausted).1 = Return None
  ∧ Music._unplayed_videos Example.exhausted = []
  ∧ Music._unplayed_videos
      (Music.find_and_recommend_music_by_desc Example.exact_ratio Example.lower None 2
         "晴天" Example.exhausted).2 = [0%nat].
Proof.
  split; [apply (bool_decide_unpack _); vm_compute; exact I |].
  split; [reflexivity |]. split; reflexivity.
Qed.

Lemma nomatch_leaves_unplayed_witness :
  (2 ≤ 2)%nat
  ∧ Music._all_available_videos Example.loaded ≠ []
  ∧ (Music.find_and_recommend_music_by_desc Example.exact_ratio Example.lower None 2
       "下雪" Example.loaded).1 = Return None
  ∧ (Music.find_and_recommend_music_by_desc Example.exact_ratio Example.lower None 2
       "下雪" Example.loaded).2 = Example.loaded.
Proof.
  split; [lia |]. split; [discriminate |]. split; [reflexivity |].
  destruct (nomatch_leaves_unplayed Example.exact_ratio Example.lower None 2 "下雪"
              Example.loaded) as [Hkept _]; [lia | discriminate | reflexivity |].
  apply Hkept. discriminate.
Defined.

(** ** The weather service *)

Section FuzzywuzzyFacts.

Context (scorer : string → string → Z) (full_process : string → string).

Local Abbreviation is_pair := Fuzzywuzzy.is_pair.

Lemma max_by_score_pair (best : Fuzzywuzzy.extraction) (rest : list Fuzzywuzzy.extraction) :
  is_pair best → Forall is_pair rest → is_pair (Fuzzywuzzy.max_by_score best rest).
Proof.
  intros Hbest Hrest. revert best Hbest.
  induction Hrest as [|e rest He _ IH]; intros best Hbest; simpl; [done |].
  destruct (_ <? _); by apply IH.
Qed.

Lemma extractWithoutOrder_pairs query choices score_cutoff :
  Forall is_pair (Fuzzywuzzy.extractWithoutOrder scorer full_process query choices score_cutoff).
Proof.
  unfold Fuzzywuzzy.extractWithoutOrder.
  induction choices as [|choice choices IH]; simpl; [constructor |].
  destruct (_ <=? _); simpl; [constructor; [exact I | exact IH] | exact IH].
Qed.

(** On a list of choices [extractOne] yields a pair or nothing, never a
    triple. *)
Lemma extractOne_pair query choices :
  match Fuzzywuzzy.extractOne scorer full_process query choices with
  | Some e => is_pair e
  | None => True
  end.
Proof.
  unfold Fuzzywuzzy.extractOne.
  pose proof (extractWithoutOrder_pairs query choices 0) as Hpairs.
  destruct (Fuzzywuzzy.extractWithoutOrder _ _ _ _ _) as [|e rest]; [done |].
  apply Forall_cons in Hpairs as [He Hrest]. by apply max_by_score_pair.
Qed.

End FuzzywuzzyFacts.

Lemma existsb_py_eq_str (s : string) (l : list Weather.json) :
  existsb (Weather.py_eq (Weather.JStr s)) l = true ↔ Weather.JStr s ∈ l.
Proof.
  induction l as [|j l IH]; simpl.
  - split; [discriminate | by intros ?%elem_of_nil].
  - rewrite orb_true_iff, IH, elem_of_cons. split.
    + intros [Hj | Hl]; [left | by right].
      destruct j; try discriminate. by apply String.eqb_eq in Hj as ->.
    + intros [<- | Hl]; [left; apply String.eqb_refl | by right].
Qed.

Lemma traverse_as_str_strings (l : list string) :
  Weather.traverse Weather.as_str (Weather.JStr <$> l) = Return l.
Proof.
  induction l as [|s l IH]; [done |].
  rewrite fmap_cons. cbn [Weather.traverse Weather.as_str Py.bind]. by rewrite IH.
Qed.

(** Reading the choices as strings either succeeds or raises TypeError. *)
Lemma traverse_as_str_cases (l : list Weather.json) :
  (∃ names, Weather.traverse Weather.as_str l = Return names ∧ l = Weather.JStr <$> names)
  ∨ Weather.traverse Weather.as_str l = Raise Py.TypeError.
Proof.
  induction l as [|j l IH]; simpl; [left; by exists [] |].
  destruct j; simpl; try by right.
  destruct IH as [(names & -> & ->) | ->]; simpl; [| by right].
  left. by eexists (_ :: names).
Qed.

Section CorrectorFacts.

Context (MANUAL_CORRECTIONS : gmap string string).
Context (extractOne : string → list string → option Fuzzywuzzy.extraction).

Local Abbreviation _auto_correct_city :=
  (Weather._auto_correct_city MANUAL_CORRECTIONS extractOne).

(** Steps (1) and (2): the alias table is applied first, and a working
    string that is a candidate is returned as it is, whatever [extractOne]
    would say. *)
Lemma auto_correct_exact (input_city : string) (available_locations : list Weather.json) :
  Weather.JStr (default input_city (MANUAL_CORRECTIONS !! input_city))
    ∈ available_locations →
  _auto_correct_city input_city available_locations
  = Return (Some (default input_city (MANUAL_CORRECTIONS !! input_city))).
Proof.
  intros Hin%existsb_py_eq_str. unfold Weather._auto_correct_city. by rewrite Hin.
Qed.

Lemma auto_correct_no_candidates (input_city : string) :
  _auto_correct_city input_city [] = Return None.
Proof. done. Qed.

(** Steps (3) and (4), for an [extractOne] that yields triples: the best
    candidate at 75 or more, NoMatch below. *)
Lemma auto_correct_fuzzy_triple (input_city : string) (candidates : list string)
    (match_ : string) (score : Z) (key : string) :
  default input_city (MANUAL_CORRECTIONS !! input_city) ∉ candidates →
  candidates ≠ [] →
  extractOne (default input_city (MANUAL_CORRECTIONS !! input_city)) candidates
    = Some (Fuzzywuzzy.Triple match_ score key) →
  _auto_correct_city input_city (Weather.JStr <$> candidates)
  = if 75 <=? score then Return (Some match_) else Return None.
Proof.
  intros Hnotin Hne Hbest. unfold Weather._auto_correct_city.
  destruct (existsb _ _) eqn:Hex.
  { apply existsb_py_eq_str, list_elem_of_fmap in Hex as (s & [= <-] & Hs). done. }
  destruct candidates as [|c cs]; [done |].
  unfold Weather.process_extractOne.
  rewrite fmap_cons, <- (fmap_cons Weather.JStr c cs), traverse_as_str_strings.
  simpl. by rewrite Hbest.
Qed.

End CorrectorFacts.

(** With fuzzywuzzy's [extractOne] the fuzzy step cannot complete: the pair
    it yields does not fill the three targets of line 62, and a candidate
    that is not a string stops the library before that. *)
Lemma auto_correct_fuzzy_raises (MANUAL_CORRECTIONS : gmap string string)
    (scorer : string → string → Z) (full_process : string → string)
    (input_city : string) (available_locations : list Weather.json) :
  Weather.JStr (default input_city (MANUAL_CORRECTIONS !! input_city))
    ∉ available_locations →
  available_locations ≠ [] →
  Weather._auto_correct_city MANUAL_CORRECTIONS
    (Fuzzywuzzy.extractOne scorer full_process) input_city available_locations
  = Raise Py.ValueError
  ∨ Weather._auto_correct_city MANUAL_CORRECTIONS
      (Fuzzywuzzy.extractOne scorer full_process) input_city available_locations
    = Raise Py.TypeError.
Proof.
  intros Hnotin Hne. unfold Weather._auto_correct_city.
  destruct (existsb _ _) eqn:Hex; [by apply existsb_py_eq_str in Hex |].
  destruct available_locations as [|c cs]; [done |].
  unfold Weather.process_extractOne.
  destruct (traverse_as_str_cases (c :: cs)) as [(names & -> & _) | ->]; [| by right].
  simpl.
  pose proof (extractOne_pair scorer full_process
                (default input_city (MANUAL_CORRECTIONS !! input_city)) names) as Hpair.
  destruct (Fuzzywuzzy.extractOne _ _ _ _) as [[choice score | choice score key] |];
    [by left | done | by right].
Qed.

Section WeatherFacts.

Context (CWA_API_KEY : string) (MANUAL_CORRECTIONS : gmap string string).
Context (WEATHER_KEYWORDS_MAP : list (string * string)).
Context (extractOne : string → list string → option Fuzzywuzzy.extraction).
Context (isdigit : string → bool) (str_of_exn : Py.exn → string).
Context (strptime : string → option Weather.datetime).
Context (timeline : Weather.datetime → Z).
Context (clock : nat → Weather.datetime).
Context (http_get : nat → string → Py.outcome Weather.json).

Local Abbreviation now := (Weather.now clock).
Local Abbreviation distance := (Weather.distance strptime timeline clock).
Local Abbreviation min_loop := (Weather.min_loop strptime timeline clock).
Local Abbreviation min_by_distance := (Weather.min_by_distance strptime timeline clock).
Local Abbreviation build_response :=
  (Weather.build_response WEATHER_KEYWORDS_MAP strptime timeline clock).
Local Abbreviation forecast_response :=
  (Weather.forecast_response WEATHER_KEYWORDS_MAP strptime timeline clock).
Local Abbreviation cache_check := (Weather.cache_check timeline clock).
Local Abbreviation weather_url := (Weather.weather_url CWA_API_KEY).
Local Abbreviation locations_url := (Weather.locations_url CWA_API_KEY).
Local Abbreviation fetch_weather :=
  (Weather.fetch_weather CWA_API_KEY WEATHER_KEYWORDS_MAP str_of_exn strptime timeline
     clock http_get).
Local Abbreviation _get_all_location_names :=
  (Weather._get_all_location_names CWA_API_KEY http_get).
Local Abbreviation _auto_correct_city :=
  (Weather._auto_correct_city MANUAL_CORRECTIONS extractOne).
Local Abbreviation get_current_weather :=
  (Weather.get_current_weather CWA_API_KEY MANUAL_CORRECTIONS WEATHER_KEYWORDS_MAP
     extractOne isdigit str_of_exn strptime timeline clock http_get).

(** *** Computations that only read the clock *)

Lemma same_globals_refl (st : Weather.state) : Weather.same_globals st st.
Proof. by unfold Weather.same_globals. Qed.

Lemma same_globals_trans (st1 st2 st3 : Weather.state) :
  Weather.same_globals st1 st2 → Weather.same_globals st2 st3 →
  Weather.same_globals st1 st3.
Proof. unfold Weather.same_globals. intros (-> & -> & ->) (-> & -> & ->). done. Qed.

Lemma reads_clock_only_ret {A : Type} (a : A) : Weather.reads_clock_only (Weather.ret a).
Proof. intros st. apply same_globals_refl. Qed.

Lemma reads_clock_only_lift {A : Type} (o : Py.outcome A) :
  Weather.reads_clock_only (Weather.lift o).
Proof. intros st. apply same_globals_refl. Qed.

Lemma reads_clock_only_now : Weather.reads_clock_only now.
Proof. intros st. by unfold Weather.same_globals. Qed.

Lemma reads_clock_only_bind {A B : Type} (m : Weather.M A) (k : A → Weather.M B) :
  Weather.reads_clock_only m → (∀ a, Weather.reads_clock_only (k a)) →
  Weather.reads_clock_only (Weather.bind m k).
Proof.
  intros Hm Hk st. unfold Weather.bind. specialize (Hm st).
  destruct (m st) as [[a | e] st']; simpl in *; [| done].
  eapply same_globals_trans; [exact Hm | apply Hk].
Qed.

Ltac clock_only :=
  repeat first
    [ apply reads_clock_only_ret
    | apply reads_clock_only_lift
    | apply reads_clock_only_now
    | apply reads_clock_only_bind; [| intros ?] ].

Lemma reads_clock_only_distance (x : Weather.json) : Weather.reads_clock_only (distance x).
Proof. unfold Weather.distance. clock_only. Qed.

Lemma reads_clock_only_min_loop items best best_key :
  Weather.reads_clock_only (min_loop items best best_key).
Proof.
  revert best best_key. induction items as [|x rest IH]; intros best best_key; simpl.
  - apply reads_clock_only_ret.
  - apply reads_clock_only_bind; [apply reads_clock_only_distance |].
    intros k. destruct (k <? best_key); apply IH.
Qed.

Lemma reads_clock_only_min_by_distance items :
  Weather.reads_clock_only (min_by_distance items).
Proof.
  destruct items as [|x rest]; simpl; [apply reads_clock_only_lift |].
  apply reads_clock_only_bind; [apply reads_clock_only_distance |].
  intros k. apply reads_clock_only_min_loop.
Qed.

Lemma reads_clock_only_build_response corrected_city data :
  Weather.reads_clock_only (build_response corrected_city data).
Proof.
  unfold Weather.build_response.
  repeat first
    [ apply reads_clock_only_ret
    | apply reads_clock_only_lift
    | apply reads_clock_only_min_by_distance
    | apply reads_clock_only_bind; [| intros ?] ].
Qed.

(** *** The cache check and the fetch *)

Local Abbreviation on_error := (Weather.on_error str_of_exn).
Local Abbreviation stored := (Weather.stored clock).
Local Abbreviation fetch_succeeds :=
  (Weather.fetch_succeeds CWA_API_KEY WEATHER_KEYWORDS_MAP strptime timeline clock http_get).

Lemma cache_check_miss corrected_city (st : Weather.state) :
  Weather._weather_data_cache st !! corrected_city = None →
  cache_check corrected_city st = (Return None, st).
Proof.
  intros Hmiss. unfold Weather.cache_check, Weather.bind, Weather.cache_lookup.
  by rewrite Hmiss.
Qed.

Lemma cache_check_entry corrected_city response timestamp (st : Weather.state) :
  Weather._weather_data_cache st !! corrected_city = Some (response, timestamp) →
  cache_check corrected_city st
  = (Return (if Weather.fresh timeline (clock (Weather.clock_reads st)) timestamp
             then Some response else None),
     Weather.tick st).
Proof.
  intros Hentry. unfold Weather.cache_check, Weather.bind, Weather.cache_lookup.
  by rewrite Hentry.
Qed.

Lemma cache_check_returns corrected_city (st : Weather.state) :
  ∃ hit st', cache_check corrected_city st = (Return hit, st')
             ∧ Weather.same_globals st st'.
Proof.
  destruct (Weather._weather_data_cache st !! corrected_city) as [[response timestamp] |] eqn:E.
  - rewrite (cache_check_entry _ _ _ _ E). eexists _, _. split; [done |].
    by unfold Weather.same_globals.
  - rewrite (cache_check_miss _ _ E). eexists _, _. split; [done |].
    apply same_globals_refl.
Qed.

(** A successful fetch returns the response built from the reply and stores
    it under the corrected name. *)
Lemma fetch_weather_success corrected_city (st : Weather.state) response st' :
  fetch_succeeds corrected_city st response st' →
  fetch_weather corrected_city st = (Return response, stored corrected_city response st').
Proof.
  intros (data & Hget & Husable & Hbuild).
  unfold Weather.fetch_weather, Weather.try_except, Weather.bind,
    Weather._fetch_data_from_cwa, Weather.lift, Weather.forecast_response, Weather.bind.
  rewrite Hget, Husable, Hbuild. done.
Qed.

(** Any other fetch returns one of the three messages and leaves the globals
    as they were, the request log one entry longer. *)
Lemma fetch_weather_failure corrected_city (st : Weather.state) :
  (∀ response st', ¬ fetch_succeeds corrected_city st response st') →
  ∃ response st',
    fetch_weather corrected_city st = (Return response, st')
    ∧ (response = Weather.malformed corrected_city
       ∨ ∃ e, response = on_error corrected_city e)
    ∧ Weather.same_globals (Weather.requested (weather_url corrected_city) st) st'.
Proof.
  intros Hfail.
  unfold Weather.fetch_weather, Weather.try_except, Weather.bind,
    Weather._fetch_data_from_cwa, Weather.lift, Weather.forecast_response, Weather.bind.
  destruct (http_get _ _) as [data | e] eqn:Hget.
  - destruct (Weather.has_forecast data) as [[|] | e] eqn:Husable.
    + pose proof (reads_clock_only_build_response corrected_city data
                    (Weather.requested (weather_url corrected_city) st)) as Hframe.
      destruct (build_response corrected_city data _) as [[response | e] st1] eqn:Hbuild.
      * exfalso. apply (Hfail response st1). by exists data.
      * exists (on_error corrected_city e), st1.
        split; [by destruct e |]. split; [| done]. right. by exists e.
    + eexists _, _. split; [done |]. split; [by left | apply same_globals_refl].
    + exists (on_error corrected_city e), (Weather.requested (weather_url corrected_city) st).
      split; [by destruct e |]. split; [| apply same_globals_refl]. right. by exists e.
  - exists (on_error corrected_city e), (Weather.requested (weather_url corrected_city) st).
    split; [by destruct e |]. split; [| apply same_globals_refl]. right. by exists e.
Qed.

(** Either way the fetch is one request, for the corrected name. *)
Lemma fetch_weather_requests corrected_city (st : Weather.state) :
  Weather.requests (fetch_weather corrected_city st).2
  = Weather.requests st ++ [weather_url corrected_city].
Proof.
  unfold Weather.fetch_weather, Weather.try_except, Weather.bind,
    Weather._fetch_data_from_cwa, Weather.lift, Weather.forecast_response, Weather.bind.
  destruct (http_get _ _) as [data | e]; [| by destruct e].
  destruct (Weather.has_forecast data) as [[|] | e]; [| done | by destruct e].
  pose proof (reads_clock_only_build_response corrected_city data
                (Weather.requested (weather_url corrected_city) st)) as (_ & _ & Hreq).
  destruct (build_response corrected_city data _) as [[response | e] st1]; simpl in *.
  - done.
  - by destruct e.
Qed.

(** *** The list of names *)

Lemma get_all_location_names_cached (st : Weather.state) :
  Weather._location_names st ≠ [] →
  _get_all_location_names st = (Return (Weather._location_names st), st).
Proof.
  intros Hne. unfold Weather._get_all_location_names.
  by destruct (Weather._location_names st).
Qed.

(** The name list is always obtained: from the globals, from the reply, or
    from the fallback list.  The weather cache and the clock are not touched,
    and at most the one request for the list is made. *)
Lemma get_all_location_names_returns (st : Weather.state) :
  ∃ names st',
    _get_all_location_names st = (Return names, st')
    ∧ Weather._location_names st' = names
    ∧ Weather._weather_data_cache st' = Weather._weather_data_cache st
    ∧ Weather.clock_reads st' = Weather.clock_reads st
    ∧ (Weather.requests st' = Weather.requests st
       ∨ Weather.requests st' = Weather.requests st ++ [locations_url]).
Proof.
  destruct (Weather._location_names st) as [|name names] eqn:Hnames.
  - unfold Weather._get_all_location_names. rewrite Hnames.
    unfold Weather.try_except, Weather.bind, Weather._fetch_data_from_cwa, Weather.lift,
      Weather.set_location_names, Weather.ret.
    destruct (http_get _ _) as [response | e]; simpl; [| by eauto 10].
    destruct (Weather.contains "records" response) as [[|] | e]; simpl; [| by eauto 10 ..].
    destruct (Weather.getitem response "records") as [records | e]; simpl; [| by eauto 10].
    destruct (Weather.contains "location" records) as [[|] | e]; simpl; [| by eauto 10 ..].
    destruct (Weather.getitem records "location") as [location | e]; simpl; [| by eauto 10].
    destruct (Weather.iterate location) as [locs | e]; simpl; [| by eauto 10].
    destruct (Weather.traverse _ locs) as [names | e]; simpl; by eauto 10.
  - exists (name :: names), st. rewrite get_all_location_names_cached by (by rewrite Hnames).
    rewrite Hnames. by eauto 10.
Qed.

(** *** The lookup *)

Lemma lookup_digits (city_input : string) (st : Weather.state) :
  existsb isdigit (Weather.characters city_input) = true →
  get_current_weather city_input st = (Return (Weather.invalid_input city_input), st).
Proof. intros Hdigit. unfold Weather.get_current_weather. by rewrite Hdigit. Qed.

(** What a lookup does once the input has no digit, the names are obtained
    and the corrector has returned a non-empty name. *)
Lemma lookup_corrected (city_input corrected_city : string) (names : list Weather.json)
    (st st1 : Weather.state) :
  existsb isdigit (Weather.characters city_input) = false →
  _get_all_location_names st = (Return names, st1) →
  _auto_correct_city city_input names = Return (Some corrected_city) →
  corrected_city ≠ EmptyString →
  get_current_weather city_input st
  = match cache_check corrected_city st1 with
    | (Return (Some response), st2) => (Return response, st2)
    | (Return None, st2) => fetch_weather corrected_city st2
    | (Raise e, st2) => (Raise e, st2)
    end.
Proof.
  intros Hdigit Hnames Hcorrect Hne.
  unfold Weather.get_current_weather. rewrite Hdigit.
  unfold Weather.bind at 1. rewrite Hnames.
  unfold Weather.bind at 1, Weather.lift. rewrite Hcorrect.
  destruct corrected_city as [|c rest]; [done |].
  unfold Weather.bind.
  destruct (cache_check (String c rest) st1) as [[[response |] | e] st2]; done.
Qed.

End WeatherFacts.

(** ** The claims about the weather service *)

(** C5, at the failing input.  The alias table of the specification's second
    scenario, the 22 built-in names as candidates, and the input 高雄, which
    is neither an alias nor a candidate: the corrector has to go through the
    fuzzy step, and there [process.extractOne] hands back the pair
    [(choice, score)] that it yields for a list of choices, which the
    three-target assignment of line 62 cannot take apart.  The call raises
    (ValueError; TypeError if the scorer leaves no choice at all), whatever
    the scorer and the processor, instead of returning the best candidate or
    NoMatch. *)
Theorem corrector_fuzzy_step_raises (scorer : string → string → Z)
    (full_process : string → string) :
  (Weather._auto_correct_city Example.MANUAL_CORRECTIONS
     (Fuzzywuzzy.extractOne scorer full_process) "高雄" (Weather.JStr <$> Weather.fallback_locations)
   = Raise Py.ValueError
   ∨ Weather._auto_correct_city Example.MANUAL_CORRECTIONS
       (Fuzzywuzzy.extractOne scorer full_process) "高雄" (Weather.JStr <$> Weather.fallback_locations)
     = Raise Py.TypeError)
  ∧ Weather._auto_correct_city Example.MANUAL_CORRECTIONS Example.extractOne
      "高雄" (Weather.JStr <$> Weather.fallback_locations)
    = Raise Py.ValueError.
Proof.
  split; [| vm_compute; reflexivity].
  apply auto_correct_fuzzy_raises; [| discriminate].
  change (default "高雄"%string (Example.MANUAL_CORRECTIONS !! "高雄"%string))
    with "高雄"%string.
  intros (s & [= <-] & Hs)%list_elem_of_fmap. revert Hs.
  apply (bool_decide_unpack _). vm_compute. exact I.
Qed.

(** The same input at the lookup: the exception is raised before the
    [try] of line 112 and leaves [get_current_weather]. *)
Lemma lookup_unaliased_input_raises :
  Weather.get_current_weather "KEY" Example.MANUAL_CORRECTIONS Example.WEATHER_KEYWORDS_MAP
    Example.extractOne Example.isdigit Example.str_of_exn Example.strptime
    Example.timeline Example.clock Example.http_ok "高雄" Example.warm
  = (Raise Py.ValueError, Example.warm).
Proof. vm_compute. reflexivity. Qed.

(** A reply to the request for the names with a null [locationName]: the
    name is kept as it came, and the corrector, which finds 臺北市 nowhere in
    the list, raises when the library meets the null; the exception leaves
    [get_current_weather]. *)
Lemma lookup_null_location_name_raises :
  Weather.get_current_weather "KEY" Example.MANUAL_CORRECTIONS Example.WEATHER_KEYWORDS_MAP
    Example.extractOne Example.isdigit Example.str_of_exn Example.strptime
    Example.timeline Example.clock Example.http_null_name "臺北市" Example.fresh_start
  = (Raise Py.TypeError,
     Weather.mkState [Weather.JNull] ∅ 0
       ["https://opendata.cwa.gov.tw/api/v1/rest/datastore/F-C0032-001?Authorization=KEY"%string]).
Proof. vm_compute. reflexivity. Qed.

Section WeatherClaims.

Context (CWA_API_KEY : string) (MANUAL_CORRECTIONS : gmap string string).
Context (WEATHER_KEYWORDS_MAP : list (string * string)).
Context (extractOne : string → list string → option Fuzzywuzzy.extraction).
Context (isdigit : string → bool) (str_of_exn : Py.exn → string).
Context (strptime : string → option Weather.datetime).
Context (timeline : Weather.datetime → Z).
Context (clock : nat → Weather.datetime).
Context (http_get : nat → string → Py.outcome Weather.json).

Local Abbreviation cache_check := (Weather.cache_check timeline clock).
Local Abbreviation weather_url := (Weather.weather_url CWA_API_KEY).
Local Abbreviation fetch_succeeds :=
  (Weather.fetch_succeeds CWA_API_KEY WEATHER_KEYWORDS_MAP strptime timeline clock http_get).
Local Abbreviation stored := (Weather.stored clock).
Local Abbreviation _get_all_location_names :=
  (Weather._get_all_location_names CWA_API_KEY http_get).
Local Abbreviation _auto_correct_city :=
  (Weather._auto_correct_city MANUAL_CORRECTIONS extractOne).
Local Abbreviation get_current_weather :=
  (Weather.get_current_weather CWA_API_KEY MANUAL_CORRECTIONS WEATHER_KEYWORDS_MAP
     extractOne isdigit str_of_exn strptime timeline clock http_get).

(** C6, as amended.  A name that is one of the candidates, and that the
    alias table does not send to another string, is returned as it is. *)
Theorem corrector_keeps_canonical_name (name : string)
    (available_locations : list Weather.json) :
  Weather.JStr name ∈ available_locations →
  default name (MANUAL_CORRECTIONS !! name) = name →
  _auto_correct_city name available_locations = Return (Some name).
Proof.
  intros Hin Halias.
  rewrite (auto_correct_exact MANUAL_CORRECTIONS extractOne name available_locations);
    rewrite Halias; done.
Qed.

(** C9.  An input with a digit character gets the invalid-input response and
    nothing else happens: no request is made, the clock is not read, the
    globals are as before, and the answer does not depend on the alias table
    or on [extractOne], which are not consulted. *)
Theorem digits_short_circuit (city_input : string) (st : Weather.state) :
  existsb isdigit (Weather.characters city_input) = true →
  get_current_weather city_input st
  = (Return (mkWeatherResponse city_input "無效輸入" "縣市名稱不能包含數字！" "晴"), st).
Proof. intros Hdigit. by rewrite lookup_digits. Qed.

(** The names do not change once obtained, and a corrector that returned a
    name had candidates to choose from. *)
Lemma names_loaded (city_input corrected_city : string) (names : list Weather.json)
    (st st1 : Weather.state) :
  _get_all_location_names st = (Return names, st1) →
  _auto_correct_city city_input names = Return (Some corrected_city) →
  Weather._location_names st1 = names ∧ names ≠ []
  ∧ Weather._weather_data_cache st1 = Weather._weather_data_cache st
  ∧ Weather.clock_reads st1 = Weather.clock_reads st.
Proof.
  intros Hnames Hcorrect.
  destruct (get_all_location_names_returns CWA_API_KEY http_get st)
    as (names' & st' & Hret & Hloc & Hcache & Hclock & _).
  rewrite Hnames in Hret. simplify_eq. split_and!; try done.
  intros Hnil. rewrite Hnil in Hcorrect.
  by rewrite auto_correct_no_candidates in Hcorrect.
Qed.

(** C7.  For an input without digits that the corrector maps to [region]:
    (hit) if [region] has a cache entry younger than 600 seconds, the lookup
    returns the cached response and makes no request; (refetch) if it has no
    entry, or one that is 600 seconds old or more, the lookup makes exactly
    one request, for [region]; (store) when that fetch succeeds, its response
    is returned and replaces the entry, stamped with the time of storing;
    (again) a second lookup that reads the clock less than 600 seconds after
    that stamp returns the same response and makes no request, so that the
    two lookups made one upstream fetch. *)
Theorem cache_freshness (city_input region : string) (names : list Weather.json)
    (st st1 : Weather.state) :
  existsb isdigit (Weather.characters city_input) = false →
  _get_all_location_names st = (Return names, st1) →
  _auto_correct_city city_input names = Return (Some region) →
  region ≠ EmptyString →
  (∀ response timestamp,
     Weather._weather_data_cache st !! region = Some (response, timestamp) →
     Weather.fresh timeline (clock (Weather.clock_reads st)) timestamp = true →
     get_current_weather city_input st = (Return response, Weather.tick st1)
     ∧ Weather.requests (Weather.tick st1) = Weather.requests st1
     ∧ Weather._weather_data_cache (Weather.tick st1) = Weather._weather_data_cache st)
  ∧ (Weather._weather_data_cache st !! region = None
     ∨ (∃ response timestamp,
          Weather._weather_data_cache st !! region = Some (response, timestamp)
          ∧ Weather.fresh timeline (clock (Weather.clock_reads st)) timestamp = false) →
     Weather.requests (get_current_weather city_input st).2
     = Weather.requests st1 ++ [weather_url region])
  ∧ (∀ st2 response st3,
       cache_check region st1 = (Return None, st2) →
       fetch_succeeds region st2 response st3 →
       get_current_weather city_input st = (Return response, stored region response st3)
       ∧ Weather._weather_data_cache (stored region response st3)
         = <[region := (response, clock (Weather.clock_reads st3))]>
             (Weather._weather_data_cache st)
       ∧ Weather.requests (stored region response st3)
         = Weather.requests st1 ++ [weather_url region])
  ∧ (∀ st2 response st3,
       cache_check region st1 = (Return None, st2) →
       fetch_succeeds region st2 response st3 →
       Weather.fresh timeline
         (clock (Weather.clock_reads (stored region response st3)))
         (clock (Weather.clock_reads st3)) = true →
       get_current_weather city_input (stored region response st3)
       = (Return response, Weather.tick (stored region response st3))
       ∧ Weather.requests (Weather.tick (stored region response st3))
         = Weather.requests st1 ++ [weather_url region]).
Proof.
  intros Hdigit Hnames Hcorrect Hne.
  destruct (names_loaded _ _ _ _ _ Hnames Hcorrect) as (Hloc & Hnonnil & Hcache & Hclock).
  pose proof (lookup_corrected CWA_API_KEY MANUAL_CORRECTIONS WEATHER_KEYWORDS_MAP
                extractOne isdigit str_of_exn strptime timeline clock http_get
                city_input region names st st1 Hdigit Hnames Hcorrect Hne) as Hlookup.
  assert (∀ st2 response st3,
            cache_check region st1 = (Return None, st2) →
            fetch_succeeds region st2 response st3 →
            get_current_weather city_input st = (Return response, stored region response st3)
            ∧ Weather._location_names (stored region response st3) = names
            ∧ Weather._weather_data_cache (stored region response st3)
              = <[region := (response, clock (Weather.clock_reads st3))]>
                  (Weather._weather_data_cache st)
            ∧ Weather.requests (stored region response st3)
              = Weather.requests st1 ++ [weather_url region]) as Hstore.
  { intros st2 response st3 Hcheck Hok.
    rewrite Hlookup, Hcheck.
    rewrite (fetch_weather_success _ _ str_of_exn _ _ _ _ _ _ _ _ Hok).
    split; [done |].
    destruct (cache_check_returns timeline clock region st1)
      as (hit & st2' & Hret & Hl2 & Hc2 & Hr2).
    rewrite Hcheck in Hret. simplify_eq.
    destruct Hok as (data & _ & _ & Hbuild).
    pose proof (reads_clock_only_build_response WEATHER_KEYWORDS_MAP strptime timeline
                  clock region data (Weather.requested (weather_url region) st2'))
      as (Hl3 & Hc3 & Hr3).
    rewrite Hbuild in Hl3, Hc3, Hr3. simpl in *.
    rewrite Hl3, Hc3, Hr3, Hl2, Hc2, Hr2, Hcache. done. }
  split_and!.
  - intros response timestamp Hentry Hfresh.
    rewrite Hlookup. rewrite <- Hcache in Hentry.
    rewrite (cache_check_entry timeline clock _ _ _ _ Hentry), Hclock, Hfresh.
    by rewrite <- Hcache.
  - intros Hstale. rewrite Hlookup.
    assert (∃ st2, cache_check region st1 = (Return None, st2)
                   ∧ Weather.requests st2 = Weather.requests st1) as (st2 & -> & <-).
    { rewrite <- Hcache, <- Hclock in Hstale.
      destruct Hstale as [Hmiss | (response & timestamp & Hentry & Hold)].
      - exists st1. by rewrite cache_check_miss.
      - exists (Weather.tick st1).
        by rewrite (cache_check_entry timeline clock _ _ _ _ Hentry), Hold. }
    apply fetch_weather_requests.
  - intros st2 response st3 Hcheck Hok.
    destruct (Hstore st2 response st3 Hcheck Hok) as (? & ? & ? & ?). done.
  - intros st2 response st3 Hcheck Hok Hfresh.
    destruct (Hstore st2 response st3 Hcheck Hok) as (_ & Hl & Hc & Hr).
    split; [| exact Hr].
    rewrite (lookup_corrected CWA_API_KEY MANUAL_CORRECTIONS WEATHER_KEYWORDS_MAP
               extractOne isdigit str_of_exn strptime timeline clock http_get
               city_input region names _ (stored region response st3) Hdigit);
      [| | done | done].
    + rewrite (cache_check_entry timeline clock region response
                 (clock (Weather.clock_reads st3))).
      * by rewrite Hfresh.
      * simpl. apply lookup_insert_eq.
    + rewrite get_all_location_names_cached; rewrite Hl; done.
Qed.


End WeatherClaims.

Lemma corrector_keeps_canonical_name_witness :
  Weather.JStr "臺北市" ∈ Weather.JStr <$> Weather.fallback_locations
  ∧ default "臺北市" (Example.MANUAL_CORRECTIONS !! "臺北市") = "臺北市"
  ∧ Weather._auto_correct_city Example.MANUAL_CORRECTIONS Example.extractOne
      "臺北市" (Weather.JStr <$> Weather.fallback_locations)
    = Return (Some "臺北市").
Proof.
  assert (Weather.JStr "臺北市" ∈ Weather.JStr <$> Weather.fallback_locations) as Hin
    by left.
  assert (default "臺北市" (Example.MANUAL_CORRECTIONS !! "臺北市") = "臺北市") as Halias
    by reflexivity.
  split; [exact Hin |]. split; [exact Halias |].
  exact (corrector_keeps_canonical_name Example.MANUAL_CORRECTIONS Example.extractOne
           "臺北市" (Weather.JStr <$> Weather.fallback_locations) Hin Halias).
Defined.

(** C6, as stated, fails for an alias table that has an entry for a
    canonical name: line 58 applies the table before anything else, so the
    candidate 臺北市 comes back as 新北市. *)
Lemma corrector_remaps_canonical_name :
  Weather.JStr "臺北市" ∈ Weather.JStr <$> Weather.fallback_locations
  ∧ Weather._auto_correct_city Example.remapping Example.extractOne
      "臺北市" (Weather.JStr <$> Weather.fallback_locations)
    = Return (Some "新北市")
  ∧ Weather._auto_correct_city Example.remapping Example.extractOne
      "臺北市" (Weather.JStr <$> Weather.fallback_locations)
    ≠ Return (Some "臺北市").
Proof.
  split; [by left |].
  assert (Weather._auto_correct_city Example.remapping Example.extractOne
            "臺北市" (Weather.JStr <$> Weather.fallback_locations)
          = Return (Some "新北市")) as -> by (vm_compute; reflexivity).
  split; [reflexivity | discriminate].
Qed.

Lemma digits_short_circuit_witness :
  existsb Example.isdigit (Weather.characters "臺北101") = true
  ∧ Weather.get_current_weather "KEY" Example.MANUAL_CORRECTIONS Example.WEATHER_KEYWORDS_MAP
      Example.extractOne Example.isdigit Example.str_of_exn Example.strptime
      Example.timeline Example.clock Example.http_ok "臺北101" Example.warm
    = (Return (mkWeatherResponse "臺北101" "無效輸入" "縣市名稱不能包含數字！" "晴"),
       Example.warm).
Proof.
  split; [reflexivity |].
  apply (digits_short_circuit "KEY" Example.MANUAL_CORRECTIONS Example.WEATHER_KEYWORDS_MAP
           Example.extractOne Example.isdigit Example.str_of_exn Example.strptime
           Example.timeline Example.clock Example.http_ok "臺北101" Example.warm).
  reflexivity.
Defined.

Lemma cache_freshness_witness :
  existsb Example.isdigit (Weather.characters "台北") = false
  ∧ Weather._get_all_location_names "KEY" Example.http_ok Example.warm
    = (Return (Weather.JStr <$> Weather.fallback_locations), Example.warm)
  ∧ Weather._auto_correct_city Example.MANUAL_CORRECTIONS Example.extractOne
      "台北" (Weather.JStr <$> Weather.fallback_locations) = Return (Some "臺北市")
  ∧ Weather._weather_data_cache Example.warm !! "臺北市"
    = Some (Example.cached_response, Example.noon)
  ∧ Weather.fresh Example.timeline
      (Example.clock (Weather.clock_reads Example.warm)) Example.noon = true
  ∧ Weather.get_current_weather "KEY" Example.MANUAL_CORRECTIONS
      Example.WEATHER_KEYWORDS_MAP Example.extractOne Example.isdigit Example.str_of_exn
      Example.strptime Example.timeline Example.clock Example.http_ok "台北" Example.warm
    = (Return Example.cached_response, Weather.tick Example.warm)
  ∧ Weather.cache_check Example.timeline Example.clock "臺北市" Example.cold
    = (Return None, Example.cold)
  ∧ Weather.fetch_succeeds "KEY" Example.WEATHER_KEYWORDS_MAP Example.strptime
      Example.timeline Example.clock Example.http_ok "臺北市" Example.cold
      Example.built_response
      (Weather.tick (Weather.requested (Weather.weather_url "KEY" "臺北市") Example.cold))
  ∧ Weather.get_current_weather "KEY" Example.MANUAL_CORRECTIONS
      Example.WEATHER_KEYWORDS_MAP Example.extractOne Example.isdigit Example.str_of_exn
      Example.strptime Example.timeline Example.clock Example.http_ok "台北" Example.cold
    = (Return Example.built_response,
       Weather.stored Example.clock "臺北市" Example.built_response
         (Weather.tick (Weather.requested (Weather.weather_url "KEY" "臺北市") Example.cold))).
Proof.
  assert (existsb Example.isdigit (Weather.characters "台北") = false) as Hdigit
    by reflexivity.
  assert (Weather._get_all_location_names "KEY" Example.http_ok Example.warm
          = (Return (Weather.JStr <$> Weather.fallback_locations), Example.warm)) as Hnames by reflexivity.
  assert (Weather._get_all_location_names "KEY" Example.http_ok Example.cold
          = (Return (Weather.JStr <$> Weather.fallback_locations), Example.cold)) as Hnames'
    by reflexivity.
  assert (Weather._auto_correct_city Example.MANUAL_CORRECTIONS Example.extractOne
            "台北" (Weather.JStr <$> Weather.fallback_locations) = Return (Some "臺北市")) as Hcorrect
    by (vm_compute; reflexivity).
  assert (Weather._weather_data_cache Example.warm !! "臺北市"
          = Some (Example.cached_response, Example.noon)) as Hentry
    by (vm_compute; reflexivity).
  assert (Weather.fresh Example.timeline
            (Example.clock (Weather.clock_reads Example.warm)) Example.noon = true)
    as Hfresh by reflexivity.
  assert (Weather.cache_check Example.timeline Example.clock "臺北市" Example.cold
          = (Return None, Example.cold)) as Hcheck by reflexivity.
  assert (Weather.fetch_succeeds "KEY" Example.WEATHER_KEYWORDS_MAP Example.strptime
            Example.timeline Example.clock Example.http_ok "臺北市" Example.cold
            Example.built_response
            (Weather.tick (Weather.requested (Weather.weather_url "KEY" "臺北市")
                             Example.cold))) as Hok.
  { exists Example.forecast_reply. split; [reflexivity |]. split; [reflexivity |].
    vm_compute. reflexivity. }
  split_and!; try assumption.
  - destruct (cache_freshness "KEY" Example.MANUAL_CORRECTIONS Example.WEATHER_KEYWORDS_MAP
                Example.extractOne Example.isdigit Example.str_of_exn Example.strptime
                Example.timeline Example.clock Example.http_ok
                "台北" "臺北市" (Weather.JStr <$> Weather.fallback_locations)
                Example.warm Example.warm Hdigit Hnames Hcorrect) as (Hhit & _);
      [discriminate |].
    exact (proj1 (Hhit Example.cached_response Example.noon Hentry Hfresh)).
  - destruct (cache_freshness "KEY" Example.MANUAL_CORRECTIONS Example.WEATHER_KEYWORDS_MAP
                Example.extractOne Example.isdigit Example.str_of_exn Example.strptime
                Example.timeline Example.clock Example.http_ok
                "台北" "臺北市" (Weather.JStr <$> Weather.fallback_locations)
                Example.cold Example.cold Hdigit Hnames' Hcorrect)
      as (_ & _ & Hstore & _); [discriminate |].
    exact (proj1 (Hstore Example.cold Example.built_response _ Hcheck Hok)).
Defined.


(** ** Further properties of the music service and its routes *)

Lemma fmap_filter_lookup_total {A B : Type} `{!Inhabited A} (f : A → B) (P : A → Prop)
    `{!∀ x, Decision (P x)} (pre l : list A) :
  (λ r, f ((pre ++ l) !!! r))
    <$> filter (λ r, P ((pre ++ l) !!! r)) (seq (length pre) (length l))
  = f <$> filter P l.
Proof.
  revert pre. induction l as [|x l IH]; intros pre; [done |].
  cbn [length seq].
  assert ((pre ++ x :: l) !!! length pre = x) as Hx
    by (by apply list_lookup_total_middle).
  specialize (IH (pre ++ [x])).
  rewrite <- (assoc_L (++)) in IH. simpl in IH.
  rewrite length_app in IH. simpl in IH. rewrite Nat.add_1_r in IH.
  destruct (decide (P x)) as [HP | HP].
  - rewrite (filter_cons_True P x l HP).
    rewrite filter_cons_True by (by rewrite Hx).
    rewrite fmap_cons, Hx, fmap_cons. f_equal. exact IH.
  - rewrite (filter_cons_False P x l HP).
    rewrite filter_cons_False by (by rewrite Hx).
    exact IH.
Qed.

Lemma catalogue_alter (b : bool) (x : nat) (heap : list VideoData) :
  Music.set_played false <$> alter (Music.set_played b) x heap
  = Music.set_played false <$> heap.
Proof.
  rewrite (list_fmap_alter (Music.set_played false) (Music.set_played b) id)
    by (by apply Forall_forall).
  by apply list_alter_id.
Qed.

Lemma catalogue_mark_and_remove (chosen : nat) (st : Music.state) :
  Main.catalogue (Music.mark_and_remove chosen st).2 = Main.catalogue st.
Proof.
  unfold Music.mark_and_remove, Main.catalogue.
  destruct (Py.remove _ _ _); simpl; apply catalogue_alter.
Qed.

Lemma catalogue_reset (st : Music.state) :
  Main.catalogue (Music.reset st) = Main.catalogue st.
Proof.
  unfold Main.catalogue. simpl. rewrite <- list_fmap_compose.
  by apply list_fmap_ext.
Qed.

Section MusicExtras.

Context (partial_ratio : string → string → Z) (lower : string → string).
Context (disk : option (list VideoData)).

Local Abbreviation find_and_recommend_music_by_desc :=
  (Music.find_and_recommend_music_by_desc partial_ratio lower disk).
Local Abbreviation get_random_music_recommendation :=
  (Music.get_random_music_recommendation disk).
Local Abbreviation best_score_for_video := (Music.best_score_for_video partial_ratio lower).

(** X1.  Start-up followed by random serving: once the loader has read a
    file, as many random serves as the file has videos not flagged as played
    return exactly those videos, each once (a flag that the file already
    carries keeps its video out of the first cycle), and exhaust the list. *)
Theorem music_startup_serves_unplayed (raw_data : list VideoData) (depth : nat)
    (draws : list nat) :
  (1 ≤ depth)%nat →
  length draws = length (filter (λ v, played v = false) raw_data) →
  ∃ recs st',
    Music.consecutive_random (Some raw_data) depth draws
      (Main.startup lower (Some raw_data) None).1
      = ((λ r, Return (Some r)) <$> recs, st')
    ∧ recs ≡ₚ Music.random_message <$> filter (λ v, played v = false) raw_data
    ∧ Music._unplayed_videos st' = [].
Proof.
  intros Hdepth Hlen. simpl.
  pose proof (inv_load (Some raw_data) Music.initial inv_initial) as Hinv.
  pose proof (fmap_filter_lookup_total (λ v : VideoData, v) (λ v, played v = false)
                [] raw_data) as Hfilter.
  simpl in Hfilter. rewrite !list_fmap_id in Hfilter.
  destruct (consecutive_random_drain (Some raw_data) depth draws
              (Music._load_videos_data (Some raw_data) Music.initial))
    as (recs & st' & Hrun & Hperm & Hempty & _); [done | done | |].
  - simpl. rewrite Hlen, <- Hfilter. by rewrite length_fmap.
  - exists recs, st'. split; [done |]. split; [| done].
    rewrite Hperm.
    rewrite <- (fmap_filter_lookup_total Music.random_message
                  (λ v, played v = false) [] raw_data).
    reflexivity.
Qed.

(** X2.  With nothing loaded and a file that is missing, unreadable or holds
    no video, both serve functions answer with the not-initialised message
    and leave the globals as they are, and they go on doing so however often
    they are called. *)
Theorem music_not_initialised (depth : nat) (weather_desc : string) (draws : list nat) :
  (1 ≤ depth)%nat →
  disk = None ∨ disk = Some [] →
  find_and_recommend_music_by_desc depth weather_desc Music.initial
    = (Return (Some Music.not_initialised), Music.initial)
  ∧ Music.consecutive_random disk depth draws Music.initial
    = (replicate (length draws) (Return (Some Music.not_initialised)), Music.initial).
Proof.
  intros Hdepth Hdisk. destruct depth as [|depth]; [lia |].
  split; [by destruct Hdisk as [-> | ->] |].
  induction draws as [|draw draws IH]; [done |].
  cbn [Music.consecutive_random]. 
  assert (get_random_music_recommendation (S depth) draw Music.initial
          = (Return (Some Music.not_initialised), Music.initial)) as ->
    by (by destruct Hdisk as [-> | ->]).
  by rewrite IH.
Qed.

(** X3.  Serving never edits the catalogue: whatever a serve function
    returns or raises, the loaded videos are the same in number and order and
    have the same URL, description and tags; only [played] flags change. *)
Theorem serving_keeps_catalogue (depth draw : nat) (weather_desc : string)
    (st : Music.state) :
  Music._all_available_videos st ≠ [] →
  Main.catalogue (find_and_recommend_music_by_desc depth weather_desc st).2
    = Main.catalogue st
  ∧ Main.catalogue (get_random_music_recommendation depth draw st).2
    = Main.catalogue st.
Proof.
  intros Hall. split.
  - revert st Hall. induction depth as [|depth IH]; intros st Hall; [done |].
    cbn [Music.find_and_recommend_music_by_desc].
    rewrite ensure_loaded_loaded by done.
    destruct (Music._all_available_videos st) as [|v all] eqn:Hv; [done |].
    destruct (Music._unplayed_videos st) as [|r unplayed] eqn:Hun.
    + rewrite IH; [apply catalogue_reset |]. simpl. by rewrite Hv.
    + unfold Music.match_in_unplayed.
      destruct (Music.best_match_loop _ _ _ _ _ _ _) as [[[x |] s] | e]; [| done | done].
      destruct (70 <=? s); [| done].
      pose proof (catalogue_mark_and_remove x st) as Hcat.
      by destruct (Music.mark_and_remove x st) as [[[] | e] st'].
  - revert st Hall. induction depth as [|depth IH]; intros st Hall; [done |].
    cbn [Music.get_random_music_recommendation].
    rewrite ensure_loaded_loaded by done.
    destruct (Music._all_available_videos st) as [|v all] eqn:Hv; [done |].
    destruct (Music._unplayed_videos st) as [|r unplayed] eqn:Hun.
    + rewrite IH; [apply catalogue_reset |]. simpl. by rewrite Hv.
    + unfold Music.choose_in_unplayed. rewrite Hun.
      destruct (Py.choice draw (r :: unplayed)) as [x | e]; [| done].
      pose proof (catalogue_mark_and_remove x st) as Hcat.
      by destruct (Music.mark_and_remove x st) as [[[] | e] st'].
Qed.

(** X4.  The matched serve on a loaded pool whose candidate videos (the
    unplayed ones, after the refill of an exhausted list) all carry a tag,
    with a scorer that is never negative: the winner is the first video, in
    list order, of greatest score; at 70 or more it is marked, taken off the
    list and returned, below 70 the answer is NoMatch. *)
Theorem matched_serve_first_best (depth : nat) (weather_desc : string) (st : Music.state) :
  (2 ≤ depth)%nat →
  (∀ a b, 0 ≤ partial_ratio a b) →
  Music.inv st →
  Music._all_available_videos st ≠ [] →
  Forall (λ r, matched_weather_descriptions
                 (Music._all_available_videos (Music.refill_if_empty st) !!! r) ≠ [])
         (Music._unplayed_videos (Music.refill_if_empty st)) →
  ∃ l1 x l2 best_score,
    Music._unplayed_videos (Music.refill_if_empty st) = l1 ++ x :: l2
    ∧ best_score_for_video weather_desc
        (Music._all_available_videos (Music.refill_if_empty st) !!! x)
      = Return best_score
    ∧ Forall (λ r, ∀ s, best_score_for_video weather_desc
                          (Music._all_available_videos (Music.refill_if_empty st) !!! r)
                        = Return s → s < best_score) l1
    ∧ Forall (λ r, ∀ s, best_score_for_video weather_desc
                          (Music._all_available_videos (Music.refill_if_empty st) !!! r)
                        = Return s → s ≤ best_score) l2
    ∧ find_and_recommend_music_by_desc depth weather_desc st
      = if 70 <=? best_score
        then (Return (Some (Music.matched_message weather_desc
                              (Music._all_available_videos st !!! x))),
              Music.mkState
                (alter (Music.set_played true) x
                       (Music._all_available_videos (Music.refill_if_empty st)))
                (l1 ++ l2))
        else (Return None, Music.refill_if_empty st).
Proof.
  intros Hdepth Hrange Hinv Hall Htagged.
  rewrite find_and_recommend_guarded by done.
  unfold Music.serve_by_match_guarded.
  assert (Music.inv (Music.refill_if_empty st)) as Hinv0.
  { unfold Music.refill_if_empty. destruct (Music._unplayed_videos st); [apply inv_reset | done]. }
  assert (Music._unplayed_videos (Music.refill_if_empty st) ≠ []) as Hne0.
  { unfold Music.refill_if_empty. destruct (Music._unplayed_videos st) eqn:Hun.
    - simpl. by destruct (Music._all_available_videos st).
    - by rewrite Hun. }
  destruct (match_in_unplayed_tagged partial_ratio lower weather_desc
              (Music.refill_if_empty st) Hrange Hinv0 Hne0 Htagged)
    as (l1 & x & l2 & best_score & Hsplit & Hx & H1 & H2 & ->).
  exists l1, x, l2, best_score. split_and!; try done.
  destruct (70 <=? best_score); [| done].
  do 3 f_equal.
  unfold Music.refill_if_empty. destruct (Music._unplayed_videos st) eqn:Hun; [| done].
  simpl. unfold Music.refill_if_empty in Hsplit. rewrite Hun in Hsplit. simpl in Hsplit.
  assert (x ∈ seq 0 (length (Music._all_available_videos st))) as Hxin
    by (rewrite Hsplit, elem_of_app; right; left).
  apply elem_of_seq in Hxin.
  by rewrite (list_lookup_total_fmap (Music.set_played false)) by lia.
Qed.

(** X5.  A random serve on a loaded pool takes exactly one video off the
    unplayed list (as refilled, if it was exhausted), returns that video and
    sets its flag; the list is then one shorter, so a serve on an exhausted
    pool of n videos leaves n - 1 of them unplayed. *)
Theorem random_serve_takes_one (depth draw : nat) (st : Music.state) :
  (2 ≤ depth)%nat →
  Music.inv st →
  Music._all_available_videos st ≠ [] →
  ∃ l1 x l2,
    Music._unplayed_videos (Music.refill_if_empty st) = l1 ++ x :: l2
    ∧ (x ∉ l1 ++ l2)
    ∧ get_random_music_recommendation depth draw st
      = (Return (Some (Music.random_message (Music._all_available_videos st !!! x))),
         Music.mkState
           (alter (Music.set_played true) x
                  (Music._all_available_videos (Music.refill_if_empty st)))
           (l1 ++ l2))
    ∧ played (alter (Music.set_played true) x
                (Music._all_available_videos (Music.refill_if_empty st)) !!! x) = true
    ∧ (Music._unplayed_videos st = [] →
       S (length (l1 ++ l2)) = length (Music._all_available_videos st)).
Proof.
  intros Hdepth Hinv Hall.
  rewrite get_random_guarded by done. unfold Music.serve_random_guarded.
  assert (Music.inv (Music.refill_if_empty st)) as Hinv0.
  { unfold Music.refill_if_empty. destruct (Music._unplayed_videos st); [apply inv_reset | done]. }
  assert (Music._unplayed_videos (Music.refill_if_empty st) ≠ []) as Hne0.
  { unfold Music.refill_if_empty. destruct (Music._unplayed_videos st) eqn:Hun.
    - simpl. by destruct (Music._all_available_videos st).
    - by rewrite Hun. }
  destruct (choose_in_unplayed_inv draw (Music.refill_if_empty st) Hinv0 Hne0)
    as (x & l1 & l2 & Hsplit & ->).
  pose proof Hinv0 as (Hnd & Hb & _)%inv_unfold.
  assert (x < length (Music._all_available_videos (Music.refill_if_empty st)))%nat as Hx
    by (apply Hb; rewrite Hsplit, elem_of_app; right; left).
  exists l1, x, l2. split_and!; try done.
  - rewrite Hsplit in Hnd.
    apply NoDup_app in Hnd as (_ & Hd & Hnd2). apply NoDup_cons in Hnd2 as [Hn2 _].
    intros [H1 | H2]%elem_of_app; [| done]. apply (Hd x H1). left.
  - do 3 f_equal. unfold Music.refill_if_empty in *.
    destruct (Music._unplayed_videos st) eqn:Hun; [| done].
    simpl in *. rewrite length_fmap in Hx.
    by rewrite (list_lookup_total_fmap (Music.set_played false)) by lia.
  - by rewrite list_lookup_total_alter_eq.
  - intros Hempty. unfold Music.refill_if_empty in Hsplit. rewrite Hempty in Hsplit.
    simpl in Hsplit.
    assert (length (seq 0 (length (Music._all_available_videos st)))
            = length (l1 ++ x :: l2)) as Hlen by (by rewrite Hsplit).
    rewrite length_seq, length_app in Hlen. simpl in Hlen.
    rewrite length_app. lia.
Qed.

(** X6.  [get_random_music_recommendation] never returns [None]: on every
    state that the service can be in it returns the not-initialised message
    or a video.  So the route [get_random_music] passes the service's answer
    on and its own message for [None] is never sent. *)
Theorem random_music_route_never_falls_back (depth draw : nat) (st : Music.state) :
  (2 ≤ depth)%nat →
  Music.inv st →
  ∃ r st',
    get_random_music_recommendation depth draw st = (Return (Some r), st')
    ∧ Routes.get_random_music disk depth draw st = (Return r, st')
    ∧ r ≠ Routes.all_played.
Proof.
  intros Hdepth Hinv. unfold Routes.get_random_music.
  destruct (decide (Music._all_available_videos (Music.ensure_loaded disk st) = []))
    as [Hnone | Hsome].
  - destruct depth as [|depth]; [lia |].
    cbn [Music.get_random_music_recommendation]. rewrite Hnone.
    eexists _, _. split; [done |]. split; [done |]. discriminate.
  - destruct (music_random_returns disk depth draw st Hdepth Hinv Hsome) as (x & _ & Hret).
    destruct (get_random_music_recommendation depth draw st) as [result st'].
    simpl in Hret. subst result.
    eexists _, st'. split; [done |]. split; [done |]. discriminate.
Qed.

(** X20.  When the route [recommend_music] answers a loaded pool with its
    no-match message, the service had returned [None] and no video was
    served: no flag was set and nothing was taken off the unplayed list, which
    is as before the call, or refilled if it was exhausted. *)
Theorem recommend_music_no_match_serves_nothing (depth : nat) (desc : string)
    (st : Music.state) :
  (2 ≤ depth)%nat →
  Music._all_available_videos st ≠ [] →
  (Routes.recommend_music partial_ratio lower disk depth desc st).1
    = Return (Routes.no_match desc) →
  (find_and_recommend_music_by_desc depth desc st).1 = Return None
  ∧ (Routes.recommend_music partial_ratio lower disk depth desc st).2
    = Music.refill_if_empty st.
Proof.
  intros Hdepth Hall. unfold Routes.recommend_music.
  rewrite find_and_recommend_guarded by done.
  unfold Music.serve_by_match_guarded.
  pose proof (match_in_unplayed_none partial_ratio lower desc (Music.refill_if_empty st))
    as Hnone.
  assert (∀ r, (Music.match_in_unplayed partial_ratio lower desc
                  (Music.refill_if_empty st)).1 = Return (Some r) →
               r ≠ Routes.no_match desc) as Hserved.
  { intros r. unfold Music.match_in_unplayed.
    destruct (Music.best_match_loop _ _ _ _ _ _ _) as [[[x |] s] | e]; [| done | done].
    destruct (70 <=? s); [| done].
    destruct (Music.mark_and_remove x _) as [[[] | e] st']; [| done].
    simpl. intros [= <-]. discriminate. }
  destruct (Music.match_in_unplayed partial_ratio lower desc (Music.refill_if_empty st))
    as [[[r |] | e] st']; simpl in *.
  - intros [= Hr]. by destruct (Hserved r eq_refl).
  - intros _. split; [done |]. by apply Hnone.
  - discriminate.
Qed.

End MusicExtras.

Lemma music_startup_serves_unplayed_witness :
  (1 ≤ 2)%nat
  ∧ ∃ recs st',
      Music.consecutive_random (Some [Music.set_played true Example.sunny; Example.rainy])
        2 [5%nat]
        (Main.startup Example.lower
           (Some [Music.set_played true Example.sunny; Example.rainy]) None).1
        = ((λ r, Return (Some r)) <$> recs, st')
      ∧ recs ≡ₚ [Music.random_message Example.rainy].
Proof.
  split; [lia |].
  destruct (music_startup_serves_unplayed Example.lower
              [Music.set_played true Example.sunny; Example.rainy] 2 [5%nat])
    as (recs & st' & Hrun & Hperm & _); [lia | reflexivity |].
  by exists recs, st'.
Defined.

Lemma music_not_initialised_witness :
  (1 ≤ 1)%nat
  ∧ Music.consecutive_random None 1 [3%nat; 4%nat] Music.initial
    = ([Return (Some Music.not_initialised); Return (Some Music.not_initialised)],
       Music.initial).
Proof.
  split; [lia |].
  apply (music_not_initialised Example.exact_ratio Example.lower None 1 "晴天"
           [3%nat; 4%nat]); [lia | by left].
Defined.

Lemma serving_keeps_catalogue_witness :
  Music._all_available_videos Example.loaded ≠ []
  ∧ Main.catalogue (Music.get_random_music_recommendation None 2 1 Example.loaded).2
    = Main.catalogue Example.loaded.
Proof.
  split; [discriminate |].
  apply (serving_keeps_catalogue Example.exact_ratio Example.lower None 2 1 "晴天"
           Example.loaded).
  discriminate.
Defined.

Lemma exact_ratio_nonnegative (a b : string) : 0 ≤ Example.exact_ratio a b.
Proof. unfold Example.exact_ratio. destruct (String.eqb a b); lia. Defined.

Lemma matched_serve_first_best_witness :
  (2 ≤ 2)%nat
  ∧ Music.inv Example.loaded
  ∧ Music.find_and_recommend_music_by_desc Example.exact_ratio Example.lower None 2
      "雨天" Example.loaded
    = (Return (Some (Music.matched_message "雨天" Example.rainy)),
       Music.mkState [Example.sunny; Music.set_played true Example.rainy] [0%nat]).
Proof.
  assert (Music.inv Example.loaded) as Hinv
    by (apply (bool_decide_unpack _); vm_compute; exact I).
  split; [lia |]. split; [exact Hinv |].
  destruct (matched_serve_first_best Example.exact_ratio Example.lower None 2 "雨天"
              Example.loaded) as (l1 & x & l2 & best & _ & _ & _ & _ & Hrun);
    [lia | exact exact_ratio_nonnegative | exact Hinv | discriminate
     | repeat constructor; discriminate |].
  reflexivity.
Defined.

Lemma random_serve_takes_one_witness :
  (2 ≤ 2)%nat
  ∧ Music.inv Example.exhausted
  ∧ ∃ st', (Music.get_random_music_recommendation None 2 7 Example.exhausted).2 = st'
           ∧ Music._unplayed_videos st' = [].
Proof.
  assert (Music.inv Example.exhausted) as Hinv
    by (apply (bool_decide_unpack _); vm_compute; exact I).
  split; [lia |]. split; [exact Hinv |].
  destruct (random_serve_takes_one None 2 7 Example.exhausted)
    as (l1 & x & l2 & _ & _ & Hrun & _ & Hlen); [lia | exact Hinv | discriminate |].
  rewrite Hrun. eexists. split; [reflexivity |]. simpl.
  specialize (Hlen eq_refl). simpl in Hlen.
  destruct (l1 ++ l2); [done | simpl in Hlen; lia].
Defined.

Lemma random_music_route_never_falls_back_witness :
  (2 ≤ 2)%nat
  ∧ Music.inv Music.initial
  ∧ Routes.get_random_music None 2 0 Music.initial
    = (Return Music.not_initialised, Music.initial).
Proof.
  assert (Music.inv Music.initial) as Hinv
    by (apply (bool_decide_unpack _); vm_compute; exact I).
  split; [lia |]. split; [exact Hinv |].
  destruct (random_music_route_never_falls_back None 2 0 Music.initial)
    as (r & st' & _ & Hroute & _); [lia | exact Hinv |].
  reflexivity.
Defined.

Lemma recommend_music_no_match_serves_nothing_witness :
  (2 ≤ 2)%nat
  ∧ (Routes.recommend_music Example.exact_ratio Example.lower None 2 "下雪" Example.loaded).1
    = Return (Routes.no_match "下雪")
  ∧ (Routes.recommend_music Example.exact_ratio Example.lower None 2 "下雪" Example.loaded).2
    = Example.loaded.
Proof.
  split; [lia |]. split; [reflexivity |].
  destruct (recommend_music_no_match_serves_nothing Example.exact_ratio Example.lower None
              2 "下雪" Example.loaded) as [_ Hstate];
    [lia | discriminate | reflexivity |].
  exact Hstate.
Defined.

(** ** Further properties of the movie service and its route *)

Lemma replace_removes (old new : ascii) (s : string) :
  old ≠ new → old ∉ list_ascii_of_string (Movie.replace old new s).
Proof.
  intros Hne. induction s as [|c s IH]; simpl; [apply not_elem_of_nil |].
  apply not_elem_of_cons. split; [| done].
  destruct (Ascii.eqb_spec c old); congruence.
Qed.

Lemma replace_keeps_out (c old new : ascii) (s : string) :
  c ≠ new → c ∉ list_ascii_of_string s →
  c ∉ list_ascii_of_string (Movie.replace old new s).
Proof.
  intros Hne. induction s as [|d s IH]; simpl; [done |].
  intros [Hd Hs]%not_elem_of_cons. apply not_elem_of_cons. split; [| by apply IH].
  by destruct (Ascii.eqb d old).
Qed.

Lemma replace_length (old new : ascii) (s : string) :
  String.length (Movie.replace old new s) = String.length s.
Proof. induction s as [|c s IH]; simpl; [done | by rewrite IH]. Qed.

Section MovieExtras.

Context (lower splitext_root quote url_for : string → string).
Context (listing : option (list string)).

Local Abbreviation get_random_movie_poster :=
  (Movie.get_random_movie_poster lower splitext_root quote url_for listing).
Local Abbreviation recommendation := (Movie.recommendation splitext_root quote url_for).

(** X7.  Start-up followed by random serving: once the loader has listed a
    directory, as many random serves as it holds image files (names whose
    lower-case form ends in .png, .jpg, .jpeg or .gif) return exactly those
    files, each once, and nothing else from the directory; a first call on
    globals that were never loaded does the loading itself. *)
Theorem movie_startup_serves_images (files : list string) (depth : nat) (draws : list nat) :
  (1 ≤ depth)%nat →
  filter (λ f, existsb (Movie.endswith (lower f)) Movie.formats = true) files ≠ [] →
  length draws
    = length (filter (λ f, existsb (Movie.endswith (lower f)) Movie.formats = true) files) →
  (∃ recs st',
     Movie.consecutive_random lower splitext_root quote url_for (Some files) depth draws
       (Main.startup lower None (Some files)).2
       = ((λ r, Return (Some r)) <$> recs, st')
     ∧ recs ≡ₚ recommendation
                 <$> filter (λ f, existsb (Movie.endswith (lower f)) Movie.formats = true)
                       files
     ∧ Movie._unrecommended_posters st' = [])
  ∧ Movie.consecutive_random lower splitext_root quote url_for (Some files) depth draws
      (Movie.mkState [] [])
    = Movie.consecutive_random lower splitext_root quote url_for (Some files) depth draws
        (Main.startup lower None (Some files)).2.
Proof.
  intros Hdepth Hsome Hlen. split.
  - apply movie_drain; simpl. all: done.
  - destruct draws as [|draw draws].
    { exfalso. simpl in Hlen. destruct (filter _ files); [done | discriminate]. }
    destruct depth as [|depth]; [lia |].
    cbn [Movie.consecutive_random Movie.get_random_movie_poster].
    rewrite (movie_ensure_loaded_loaded lower (Some files)
               (Main.startup lower None (Some files)).2) by done.
    done.
Qed.

(** X8.  The title of a recommended poster has neither an underscore nor a
    hyphen (each has become a space), and is as long as the file name's root
    that it is made from. *)
Theorem movie_title_has_no_separator (chosen_poster_filename title : string) :
  movie_title (recommendation chosen_poster_filename) = Some title →
  ("_"%char ∉ list_ascii_of_string title)
  ∧ ("-"%char ∉ list_ascii_of_string title)
  ∧ String.length title = String.length (splitext_root chosen_poster_filename).
Proof.
  intros [= <-]. split_and!.
  - apply replace_keeps_out; [done |]. by apply replace_removes.
  - by apply replace_removes.
  - by rewrite !replace_length.
Qed.

(** X9.  With nothing loaded and a directory that is missing or holds no
    image file, every call answers with the not-initialised message and
    leaves the globals as they are; and in no state does
    [get_random_movie_poster] return [None], so the route [get_random_movie]
    never sends its own message. *)
Theorem movie_not_initialised_or_served (depth draw : nat) (st : Movie.state) :
  (2 ≤ depth)%nat →
  Movie._unrecommended_posters st ⊆ Movie._all_movie_posters st →
  (Movie._all_movie_posters (Movie.ensure_loaded lower listing st) = [] →
   get_random_movie_poster depth draw st
   = (Return (Some Movie.not_initialised), Movie.ensure_loaded lower listing st))
  ∧ ∃ r st',
      get_random_movie_poster depth draw st = (Return (Some r), st')
      ∧ Routes.get_random_movie lower splitext_root quote url_for listing depth draw st
        = (Return r, st')
      ∧ r ≠ Routes.all_recommended.
Proof.
  intros Hdepth Hsub.
  assert (Movie._all_movie_posters (Movie.ensure_loaded lower listing st) = [] →
          get_random_movie_poster depth draw st
          = (Return (Some Movie.not_initialised), Movie.ensure_loaded lower listing st))
    as Hnone.
  { intros Hnone. destruct depth as [|depth]; [lia |].
    cbn [Movie.get_random_movie_poster]. by rewrite Hnone. }
  split; [exact Hnone |]. unfold Routes.get_random_movie.
  destruct (decide (Movie._all_movie_posters (Movie.ensure_loaded lower listing st) = []))
    as [Hempty | Hsome].
  - rewrite (Hnone Hempty). eexists _, _. split; [done |]. split; [done |]. discriminate.
  - destruct (movie_random_returns lower splitext_root quote url_for listing
                depth draw st Hdepth Hsub Hsome) as (f & _ & Hret).
    destruct (get_random_movie_poster depth draw st) as [result st'].
    simpl in Hret. subst result.
    eexists _, st'. split; [done |]. split; [done |]. discriminate.
Qed.

End MovieExtras.

Lemma movie_startup_serves_images_witness :
  (1 ≤ 1)%nat
  ∧ ∃ recs st',
      Movie.consecutive_random Example.lower id id id
        (Some ["a_b.png"; "notes.txt"; "c-d.jpg"]%string) 1 [0%nat; 0%nat]
        (Main.startup Example.lower None
           (Some ["a_b.png"; "notes.txt"; "c-d.jpg"]%string)).2
        = ((λ r, Return (Some r)) <$> recs, st')
      ∧ recs ≡ₚ Movie.recommendation id id id <$> ["a_b.png"; "c-d.jpg"]%string.
Proof.
  split; [lia |].
  destruct (movie_startup_serves_images Example.lower id id id
              ["a_b.png"; "notes.txt"; "c-d.jpg"]%string 1 [0%nat; 0%nat])
    as [(recs & st' & Hrun & Hperm & _) _]; [lia | discriminate | reflexivity |].
  by exists recs, st'.
Defined.

Lemma movie_title_has_no_separator_witness :
  movie_title (Movie.recommendation id id id "my_movie-2") = Some "my movie 2"%string
  ∧ ("_"%char ∉ list_ascii_of_string "my movie 2").
Proof.
  split; [reflexivity |].
  apply (movie_title_has_no_separator id id id "my_movie-2" "my movie 2"). reflexivity.
Defined.

Lemma movie_not_initialised_or_served_witness :
  (2 ≤ 2)%nat
  ∧ Movie.get_random_movie_poster Example.lower id id id (Some ["notes.txt"]%string)
      2 0 (Movie.mkState [] [])
    = (Return (Some Movie.not_initialised), Movie.mkState [] []).
Proof.
  split; [lia |].
  apply (movie_not_initialised_or_served Example.lower id id id (Some ["notes.txt"]%string)
           2 0 (Movie.mkState [] [])); [lia | done | reflexivity].
Defined.

(** ** The loaders *)

(** X19.  Both loaders are idempotent, and once anything is loaded they
    never read again: a later call leaves the globals alone even if the file
    or the directory has changed in the meantime. *)
Theorem loaders_load_once (lower : string → string)
    (disk disk' : option (list VideoData)) (listing listing' : option (list string))
    (music : Music.state) (movie : Movie.state) :
  Music._load_videos_data disk (Music._load_videos_data disk music)
    = Music._load_videos_data disk music
  ∧ Movie._load_movie_posters lower listing (Movie._load_movie_posters lower listing movie)
    = Movie._load_movie_posters lower listing movie
  ∧ (Music._all_available_videos (Music._load_videos_data disk music) ≠ [] →
     Music._load_videos_data disk' (Music._load_videos_data disk music)
       = Music._load_videos_data disk music)
  ∧ (Movie._all_movie_posters (Movie._load_movie_posters lower listing movie) ≠ [] →
     Movie._load_movie_posters lower listing' (Movie._load_movie_posters lower listing movie)
       = Movie._load_movie_posters lower listing movie).
Proof.
  split_and!.
  - unfold Music._load_videos_data.
    destruct (Music._all_available_videos music) as [|v all] eqn:Hall.
    + destruct disk as [[|v raw] |]; simpl; [done | done |]. by rewrite Hall.
    + by rewrite Hall.
  - unfold Movie._load_movie_posters.
    destruct (Movie._all_movie_posters movie) as [|f all] eqn:Hall.
    + destruct listing as [files |]; simpl; [| by rewrite Hall].
      by destruct (filter _ files).
    + by rewrite Hall.
  - intros Hloaded. unfold Music._load_videos_data at 1.
    by destruct (Music._all_available_videos (Music._load_videos_data disk music)).
  - intros Hloaded. unfold Movie._load_movie_posters at 1.
    by destruct (Movie._all_movie_posters (Movie._load_movie_posters lower listing movie)).
Qed.

(** ** Further properties of the weather service *)

(** X10.  With fuzzywuzzy's [extractOne], what the corrector does is decided
    by the working string (the alias target, or the input itself) and the
    candidate list alone: a working string that is a candidate is returned,
    an empty candidate list gives NoMatch, and every other call raises.  In
    particular a name that the corrector returns is always a candidate. *)
Theorem corrector_with_fuzzywuzzy (MANUAL_CORRECTIONS : gmap string string)
    (scorer : string → string → Z) (full_process : string → string)
    (input_city : string) (available_locations : list Weather.json) :
  (Weather.JStr (default input_city (MANUAL_CORRECTIONS !! input_city))
     ∈ available_locations →
   Weather._auto_correct_city MANUAL_CORRECTIONS
     (Fuzzywuzzy.extractOne scorer full_process) input_city available_locations
   = Return (Some (default input_city (MANUAL_CORRECTIONS !! input_city))))
  ∧ (available_locations = [] →
     Weather._auto_correct_city MANUAL_CORRECTIONS
       (Fuzzywuzzy.extractOne scorer full_process) input_city available_locations
     = Return None)
  ∧ (Weather.JStr (default input_city (MANUAL_CORRECTIONS !! input_city))
       ∉ available_locations →
     available_locations ≠ [] →
     ∃ e, Weather._auto_correct_city MANUAL_CORRECTIONS
            (Fuzzywuzzy.extractOne scorer full_process) input_city available_locations
          = Raise e)
  ∧ (∀ corrected,
       Weather._auto_correct_city MANUAL_CORRECTIONS
         (Fuzzywuzzy.extractOne scorer full_process) input_city available_locations
       = Return (Some corrected) →
       Weather.JStr corrected ∈ available_locations
       ∧ corrected = default input_city (MANUAL_CORRECTIONS !! input_city)).
Proof.
  split_and!.
  - apply auto_correct_exact.
  - intros ->. apply auto_correct_no_candidates.
  - intros Hnotin Hne.
    destruct (auto_correct_fuzzy_raises MANUAL_CORRECTIONS scorer full_process
                input_city available_locations Hnotin Hne) as [-> | ->]; by eexists.
  - intros corrected Hret.
    destruct (existsb (Weather.py_eq
                         (Weather.JStr (default input_city
                                          (MANUAL_CORRECTIONS !! input_city))))
                      available_locations) eqn:Hex.
    + apply existsb_py_eq_str in Hex.
      rewrite auto_correct_exact in Hret by done. by simplify_eq.
    + assert (Weather.JStr (default input_city (MANUAL_CORRECTIONS !! input_city))
              ∉ available_locations) as Hnotin.
      { intros Hin%existsb_py_eq_str. congruence. }
      destruct available_locations as [|c cs].
      * by rewrite auto_correct_no_candidates in Hret.
      * destruct (auto_correct_fuzzy_raises MANUAL_CORRECTIONS scorer full_process
                    input_city (c :: cs) Hnotin) as [Hr | Hr]; [done | |];
          rewrite Hr in Hret; discriminate.
Qed.

Section WeatherExtras.

Context (CWA_API_KEY : string) (MANUAL_CORRECTIONS : gmap string string).
Context (WEATHER_KEYWORDS_MAP : list (string * string)).
Context (extractOne : string → list string → option Fuzzywuzzy.extraction).
Context (isdigit : string → bool) (str_of_exn : Py.exn → string).
Context (strptime : string → option Weather.datetime).
Context (timeline : Weather.datetime → Z).
Context (clock : nat → Weather.datetime).
Context (http_get : nat → string → Py.outcome Weather.json).

Local Abbreviation cache_check := (Weather.cache_check timeline clock).
Local Abbreviation weather_url := (Weather.weather_url CWA_API_KEY).
Local Abbreviation locations_url := (Weather.locations_url CWA_API_KEY).
Local Abbreviation build_response :=
  (Weather.build_response WEATHER_KEYWORDS_MAP strptime timeline clock).
Local Abbreviation fetch_weather :=
  (Weather.fetch_weather CWA_API_KEY WEATHER_KEYWORDS_MAP str_of_exn strptime timeline
     clock http_get).
Local Abbreviation _get_all_location_names :=
  (Weather._get_all_location_names CWA_API_KEY http_get).
Local Abbreviation _auto_correct_city :=
  (Weather._auto_correct_city MANUAL_CORRECTIONS extractOne).
Local Abbreviation _classify_weather_type :=
  (Weather._classify_weather_type WEATHER_KEYWORDS_MAP).
Local Abbreviation get_current_weather :=
  (Weather.get_current_weather CWA_API_KEY MANUAL_CORRECTIONS WEATHER_KEYWORDS_MAP
     extractOne isdigit str_of_exn strptime timeline clock http_get).

(** X11.  [_get_all_location_names] never raises and always hands back a
    list, which it also keeps in [_location_names]; it makes at most the one
    request for the list and touches neither the weather cache nor the
    clock.  When nothing is kept yet and the request raises, or the reply has
    no [records], the list is the 22 built-in names. *)
Theorem location_names_always_obtained (st : Weather.state) :
  ∃ names st',
    _get_all_location_names st = (Return names, st')
    ∧ Weather._location_names st' = names
    ∧ Weather._weather_data_cache st' = Weather._weather_data_cache st
    ∧ Weather.clock_reads st' = Weather.clock_reads st
    ∧ (Weather.requests st' = Weather.requests st
       ∨ Weather.requests st' = Weather.requests st ++ [locations_url])
    ∧ (Weather._location_names st = [] →
       (∃ e, http_get (length (Weather.requests st)) locations_url = Raise e)
       ∨ (∃ response,
            http_get (length (Weather.requests st)) locations_url = Return response
            ∧ Weather.contains "records" response ≠ Return true) →
       names = (Weather.JStr <$> Weather.fallback_locations)
       ∧ Weather.requests st' = Weather.requests st ++ [locations_url]).
Proof.
  destruct (get_all_location_names_returns CWA_API_KEY http_get st)
    as (names & st' & Hret & Hloc & Hcache & Hclock & Hreq).
  exists names, st'. split_and!; try done.
  intros Hnone Hfail. revert Hret.
  unfold Weather._get_all_location_names. rewrite Hnone.
  unfold Weather.try_except, Weather.bind, Weather._fetch_data_from_cwa, Weather.lift,
    Weather.set_location_names, Weather.ret.
  destruct Hfail as [[e ->] | (response & -> & Hrecords)]; simpl.
  - by intros [= <- <-].
  - destruct (Weather.contains "records" response) as [[|] | e]; simpl;
      [done | by intros [= <- <-] ..].
Qed.

(** X12.  The list of names is fetched once: after a call that handed back
    a non-empty list, every further call hands back the same list without a
    request and without changing anything. *)
Theorem location_names_fetched_once (names : list Weather.json) (st st1 : Weather.state) :
  _get_all_location_names st = (Return names, st1) →
  names ≠ [] →
  _get_all_location_names st1 = (Return names, st1).
Proof.
  intros Hret Hne.
  destruct (get_all_location_names_returns CWA_API_KEY http_get st)
    as (names' & st' & Hret' & Hloc & _).
  rewrite Hret in Hret'. simplify_eq.
  by rewrite get_all_location_names_cached.
Qed.

(** The upstream fetch never raises. *)
Lemma fetch_weather_returns (corrected_city : string) (st : Weather.state) :
  ∃ response st', fetch_weather corrected_city st = (Return response, st').
Proof.
  unfold Weather.fetch_weather, Weather.try_except, Weather.bind,
    Weather._fetch_data_from_cwa, Weather.lift, Weather.forecast_response, Weather.bind.
  destruct (http_get _ _) as [data | e]; [| destruct e; by eexists _, _].
  destruct (Weather.has_forecast data) as [[|] | e];
    [| by eexists _, _ | destruct e; by eexists _, _].
  destruct (build_response corrected_city data _) as [[response | e] st1];
    [by eexists _, _ | destruct e; by eexists _, _].
Qed.

(** X13.  The only exception that leaves a lookup is one raised by the
    corrector: for an input without digits, if the corrector raises, the
    lookup raises the same exception before any weather request; if the
    corrector returns, the lookup returns a response. *)
Theorem lookup_raises_only_from_corrector (city_input : string) (names : list Weather.json)
    (st st1 : Weather.state) :
  existsb isdigit (Weather.characters city_input) = false →
  _get_all_location_names st = (Return names, st1) →
  (∀ e, _auto_correct_city city_input names = Raise e →
        get_current_weather city_input st = (Raise e, st1))
  ∧ (∀ corrected, _auto_correct_city city_input names = Return corrected →
        ∃ response st', get_current_weather city_input st = (Return response, st')).
Proof.
  intros Hdigit Hnames. split.
  - intros e Hraise. unfold Weather.get_current_weather. rewrite Hdigit.
    unfold Weather.bind at 1. rewrite Hnames.
    unfold Weather.bind at 1, Weather.lift. by rewrite Hraise.
  - intros corrected Hret.
    destruct corrected as [[|c region] |].
    + unfold Weather.get_current_weather. rewrite Hdigit.
      unfold Weather.bind at 1. rewrite Hnames.
      unfold Weather.bind at 1, Weather.lift. rewrite Hret. by eexists _, _.
    + rewrite (lookup_corrected CWA_API_KEY MANUAL_CORRECTIONS WEATHER_KEYWORDS_MAP
                 extractOne isdigit str_of_exn strptime timeline clock http_get
                 city_input (String c region) names st st1 Hdigit Hnames Hret) by done.
      destruct (cache_check_returns timeline clock (String c region) st1)
        as ([response |] & st2 & -> & _); [by eexists _, _ |].
      apply fetch_weather_returns.
    + unfold Weather.get_current_weather. rewrite Hdigit.
      unfold Weather.bind at 1. rewrite Hnames.
      unfold Weather.bind at 1, Weather.lift. rewrite Hret. by eexists _, _.
Qed.

(** X14.  An input without digits for which the corrector finds no name (or
    an empty one) gets the unrecognised-city response, which repeats the
    input; no weather request is made, the clock is not read and the cache
    is not touched.  This is the answer to every such input when the list of
    names is empty. *)
Theorem lookup_unrecognised (city_input : string) (names : list Weather.json)
    (st st1 : Weather.state) :
  existsb isdigit (Weather.characters city_input) = false →
  _get_all_location_names st = (Return names, st1) →
  _auto_correct_city city_input names = Return None
  ∨ _auto_correct_city city_input names = Return (Some EmptyString)
  ∨ names = [] →
  get_current_weather city_input st
  = (Return (mkWeatherResponse city_input "無效輸入"
               ("無效或無法識別的縣市: " +:+ city_input) "晴"), st1).
Proof.
  intros Hdigit Hnames Hnone.
  assert (_auto_correct_city city_input names = Return None
          ∨ _auto_correct_city city_input names = Return (Some EmptyString)) as Hcases.
  { destruct Hnone as [H | [H | ->]]; [by left | by right |].
    left. apply auto_correct_no_candidates. }
  unfold Weather.get_current_weather. rewrite Hdigit.
  unfold Weather.bind at 1. rewrite Hnames.
  unfold Weather.bind at 1, Weather.lift.
  by destruct Hcases as [-> | ->].
Qed.

(** *** The cache *)

Lemma bind_returns_with {A B : Type} (P : B → Prop) (m : Weather.M A) (k : A → Weather.M B) :
  (∀ a st r st', k a st = (Return r, st') → P r) →
  ∀ st r st', Weather.bind m k st = (Return r, st') → P r.
Proof.
  intros Hk st r st'. unfold Weather.bind.
  destruct (m st) as [[a | e] st1]; [apply Hk | discriminate].
Qed.

(** A response built from a reply names the corrected city. *)
Lemma build_response_city (corrected_city : string) (data : Weather.json) :
  ∀ st response st',
    build_response corrected_city data st = (Return response, st') →
    city_name response = corrected_city.
Proof.
  unfold Weather.build_response.
  repeat (apply bind_returns_with; intros ?).
  intros st response st' [= <- _]. done.
Qed.

(** What a lookup does to the cache: nothing, or one entry written, for the
    response it returns, under the city that the response names. *)
Lemma lookup_cache_effect (city_input : string) (st : Weather.state) o st' :
  get_current_weather city_input st = (o, st') →
  Weather._weather_data_cache st' = Weather._weather_data_cache st
  ∨ ∃ response timestamp,
      o = Return response
      ∧ Weather._weather_data_cache st'
        = <[city_name response := (response, timestamp)]> (Weather._weather_data_cache st).
Proof.
  unfold Weather.get_current_weather.
  destruct (existsb isdigit (Weather.characters city_input));
    [intros [= <- <-]; by left |].
  destruct (get_all_location_names_returns CWA_API_KEY http_get st)
    as (names & st1 & Hnames & _ & Hcache & _).
  unfold Weather.bind at 1. rewrite Hnames.
  unfold Weather.bind at 1, Weather.lift.
  destruct (_auto_correct_city city_input names) as [[[|c region] |] | e];
    [intros [= <- <-]; by left | | intros [= <- <-]; by left ..].
  unfold Weather.bind.
  destruct (cache_check_returns timeline clock (String c region) st1)
    as (hit & st2 & -> & _ & Hc2 & _).
  destruct hit as [response |]; [intros [= <- <-]; left; congruence |].
  unfold Weather.fetch_weather, Weather.try_except, Weather.bind,
    Weather._fetch_data_from_cwa, Weather.lift, Weather.forecast_response, Weather.bind.
  destruct (http_get _ _) as [data | e];
    [| destruct e; intros [= <- <-]; left; simpl; congruence].
  destruct (Weather.has_forecast data) as [[|] | e];
    [| intros [= <- <-]; left; simpl; congruence
     | destruct e; intros [= <- <-]; left; simpl; congruence].
  pose proof (reads_clock_only_build_response WEATHER_KEYWORDS_MAP strptime timeline clock
                (String c region) data (Weather.requested (weather_url (String c region)) st2))
    as (_ & Hc3 & _).
  pose proof (build_response_city (String c region) data
                (Weather.requested (weather_url (String c region)) st2)) as Hcity.
  destruct (build_response (String c region) data _) as [[response | e] st3].
  - intros [= <- <-]. right. exists response, (clock (Weather.clock_reads st3)).
    split; [done |]. simpl in *.
    rewrite (Hcity response st3 eq_refl). congruence.
  - destruct e; intros [= <- <-]; left; simpl in *; congruence.
Qed.

(** X15.  A lookup writes at most one cache entry, the response it returns,
    under the city that the response names; it never removes an entry, it
    leaves the entries of all other cities as they are, and it keeps every
    cached response filed under its own city. *)
Theorem lookup_keeps_cache_filed (city_input : string) (st : Weather.state) :
  well_filed (Weather._weather_data_cache st) →
  well_filed (Weather._weather_data_cache (get_current_weather city_input st).2)
  ∧ (∀ key, is_Some (Weather._weather_data_cache st !! key) →
            is_Some (Weather._weather_data_cache (get_current_weather city_input st).2
                       !! key))
  ∧ (Weather._weather_data_cache (get_current_weather city_input st).2
       = Weather._weather_data_cache st
     ∨ ∃ response timestamp,
         (get_current_weather city_input st).1 = Return response
         ∧ Weather._weather_data_cache (get_current_weather city_input st).2
           = <[city_name response := (response, timestamp)]>
               (Weather._weather_data_cache st)).
Proof.
  intros Hfiled.
  pose proof (lookup_cache_effect city_input st _ _ (surjective_pairing _)) as Heffect.
  split_and!; [| | exact Heffect].
  - destruct Heffect as [-> | (response & timestamp & _ & ->)]; [done |].
    intros key r t. rewrite lookup_insert.
    destruct (decide (city_name response = key)) as [<- | Hne].
    + by intros [= <- _].
    + apply Hfiled.
  - intros key Hsome.
    destruct Heffect as [-> | (response & timestamp & _ & ->)]; [done |].
    rewrite lookup_insert. by destruct (decide (city_name response = key)).
Qed.

(** *** The classifier *)

(** X16.  The configured keywords are tried first and in their configured
    order: the category is that of the first configured keyword that occurs
    in the description, whatever the built-in checks for 晴, 雨, 陰, 多雲 and 雪
    would have said. *)
Theorem classifier_configured_keyword_first (weather_desc keyword anim_type : string)
    (before after : list (string * string)) :
  WEATHER_KEYWORDS_MAP = before ++ (keyword, anim_type) :: after →
  Forall (λ kv, Weather.is_substring kv.1 weather_desc = false) before →
  Weather.is_substring keyword weather_desc = true →
  _classify_weather_type weather_desc = anim_type.
Proof.
  intros Hmap Hbefore Hoccurs. unfold Weather._classify_weather_type.
  assert (list_find (λ kv : string * string, Weather.is_substring kv.1 weather_desc = true)
            WEATHER_KEYWORDS_MAP = Some (length before, (keyword, anim_type))) as ->; [| done].
  apply list_find_Some. rewrite Hmap. split_and!.
  - by apply list_lookup_middle.
  - done.
  - intros j kv Hj Hlt. rewrite lookup_app_l in Hj by done.
    rewrite Forall_forall in Hbefore.
    rewrite (Hbefore kv) by (by eapply list_elem_of_lookup_2). discriminate.
Qed.

(** X17.  The classifier always answers with a configured category or with
    one of 晴, 雨, 陰, 多雲, 雪, and its answer for a description in which no
    configured keyword and none of those five occurs is 晴. *)
Theorem classifier_range (weather_desc : string) :
  _classify_weather_type weather_desc
    ∈ (snd <$> WEATHER_KEYWORDS_MAP) ++ ["晴"; "雨"; "陰"; "多雲"; "雪"]%string
  ∧ (Forall (λ kv, Weather.is_substring kv.1 weather_desc = false) WEATHER_KEYWORDS_MAP →
     Forall (λ k, Weather.is_substring k weather_desc = false)
            ["晴"; "雨"; "陰"; "多雲"; "雪"]%string →
     _classify_weather_type weather_desc = "晴"%string).
Proof.
  unfold Weather._classify_weather_type. split.
  - destruct (list_find _ WEATHER_KEYWORDS_MAP) as [[i [k a]] |] eqn:Hfind.
    + apply list_find_Some in Hfind as (Hi & _ & _).
      apply elem_of_app. left. apply list_elem_of_fmap. exists (k, a).
      split; [done |]. by eapply list_elem_of_lookup_2.
    + apply elem_of_app. right.
      repeat (case_match; [set_solver |]). set_solver.
  - intros Hmap Hbuiltin.
    assert (list_find (λ kv : string * string, Weather.is_substring kv.1 weather_desc = true)
              WEATHER_KEYWORDS_MAP = None) as ->.
    { apply list_find_None. eapply Forall_impl; [exact Hmap |].
      intros kv Hkv. simpl in Hkv. by rewrite Hkv. }
    repeat (apply Forall_cons in Hbuiltin as [-> Hbuiltin]). done.
Qed.

(** *** The forecast nearest to now *)

Lemma distance_of_start (x : Weather.json) (dt : Weather.datetime) (st : Weather.state) :
  start_of strptime x = Return dt →
  Weather.distance strptime timeline clock x st
  = (Return (Z.abs (timeline dt - timeline (clock (Weather.clock_reads st)))),
     Weather.tick st).
Proof.
  unfold start_of, Weather.distance, Weather.bind, Weather.lift, Weather.now, Weather.ret.
  destruct (Weather.getitem x "startTime") as [start | e]; simpl; [| done].
  destruct (Weather.parse_time strptime start) as [dt' | e]; simpl; [| done].
  by intros [= ->].
Qed.

Lemma distances_cons (reads : nat) (dt : Weather.datetime) (starts : list Weather.datetime) :
  distances timeline clock reads (dt :: starts)
  = Z.abs (timeline dt - timeline (clock reads))
      :: distances timeline clock (S reads) starts.
Proof.
  unfold distances. rewrite imap_cons, Nat.add_0_r. f_equal.
  apply imap_ext. intros j dt' _. simpl. do 4 f_equal. lia.
Qed.

Lemma min_loop_spec (items : list Weather.json) (starts : list Weather.datetime)
    (best : Weather.json) (best_key : Z) (st : Weather.state) :
  Forall2 (λ x dt, start_of strptime x = Return dt) items starts →
  ∃ x st',
    Weather.min_loop strptime timeline clock items best best_key st = (Return x, st')
    ∧ Weather.clock_reads st' = (Weather.clock_reads st + length items)%nat
    ∧ ((x = best
        ∧ Forall (λ k, best_key ≤ k)
                 (distances timeline clock (Weather.clock_reads st) starts))
       ∨ ∃ m k,
           items !! m = Some x
           ∧ distances timeline clock (Weather.clock_reads st) starts !! m = Some k
           ∧ k < best_key
           ∧ Forall (λ k', k ≤ k')
                    (distances timeline clock (Weather.clock_reads st) starts)
           ∧ Forall (λ k', k < k')
                    (take m (distances timeline clock (Weather.clock_reads st) starts))).
Proof.
  intros Hstarts. revert best best_key st.
  induction Hstarts as [|x0 dt0 items starts Hx0 _ IH]; intros best best_key st.
  - exists best, st. split; [done |]. split; [simpl; lia |]. left. by split.
  - cbn [Weather.min_loop]. unfold Weather.bind at 1.
    rewrite (distance_of_start x0 dt0 st Hx0), distances_cons.
    set (k0 := Z.abs (timeline dt0 - timeline (clock (Weather.clock_reads st)))).
    destruct (Z.ltb_spec k0 best_key) as [Hlt | Hge].
    + destruct (IH x0 k0 (Weather.tick st)) as (x & st' & -> & Hreads & Hcases).
      exists x, st'. split; [done |]. split; [simpl in *; lia |]. right.
      destruct Hcases as [(-> & Hall) | (m & k & Hm & Hk & Hkk & Hall & Hpre)].
      * exists 0%nat, k0. split_and!; try done. by constructor.
      * exists (S m), k. split_and!; try done; [lia | |].
        -- constructor; [lia | done].
        -- simpl. constructor; [done | done].
    + destruct (IH best best_key (Weather.tick st)) as (x & st' & -> & Hreads & Hcases).
      exists x, st'. split; [done |]. split; [simpl in *; lia |].
      destruct Hcases as [(-> & Hall) | (m & k & Hm & Hk & Hkk & Hall & Hpre)].
      * left. split; [done |]. by constructor.
      * right. exists (S m), k. split_and!; try done.
        -- constructor; [lia | done].
        -- simpl. constructor; [lia | done].
Qed.

(** X18.  Of time slots that all have a readable start, the [min] of lines
    117-118 picks the first one whose start is nearest to the clock (each
    slot is measured against a reading of the clock of its own); it reads
    the clock once per slot and changes nothing else.  Without any slot it
    raises ValueError. *)
Theorem nearest_forecast_selected (items : list Weather.json)
    (starts : list Weather.datetime) (st : Weather.state) :
  Forall2 (λ x dt, start_of strptime x = Return dt) items starts →
  items ≠ [] →
  (∃ m x k st',
     Weather.min_by_distance strptime timeline clock items st = (Return x, st')
     ∧ items !! m = Some x
     ∧ distances timeline clock (Weather.clock_reads st) starts !! m = Some k
     ∧ Forall (λ k', k ≤ k') (distances timeline clock (Weather.clock_reads st) starts)
     ∧ Forall (λ k', k < k')
              (take m (distances timeline clock (Weather.clock_reads st) starts))
     ∧ Weather.clock_reads st' = (Weather.clock_reads st + length items)%nat
     ∧ Weather.same_globals st st')
  ∧ Weather.min_by_distance strptime timeline clock [] st = (Raise Py.ValueError, st).
Proof.
  intros Hstarts Hne. split; [| done].
  pose proof (reads_clock_only_min_by_distance strptime timeline clock items st) as Hframe.
  destruct Hstarts as [|x0 dt0 items starts Hx0 Hstarts]; [done |].
  revert Hframe. cbn [Weather.min_by_distance]. unfold Weather.bind at 1 2.
  rewrite (distance_of_start x0 dt0 st Hx0), distances_cons.
  set (k0 := Z.abs (timeline dt0 - timeline (clock (Weather.clock_reads st)))).
  destruct (min_loop_spec items starts x0 k0 (Weather.tick st) Hstarts)
    as (x & st' & -> & Hreads & Hcases).
  intros Hframe.
  destruct Hcases as [(-> & Hall) | (m & k & Hm & Hk & Hkk & Hall & Hpre)].
  - exists 0%nat, x0, k0, st'. split_and!; try done.
    + by constructor.
    + simpl in *. lia.
  - exists (S m), x, k, st'. split_and!; try done.
    + constructor; [lia | done].
    + simpl. by constructor.
    + simpl in *. lia.
Qed.

End WeatherExtras.

Lemma location_names_fetched_once_witness :
  Weather._get_all_location_names "KEY" Example.http_down (Weather.mkState [] ∅ 0 [])
  = (Return (Weather.JStr <$> Weather.fallback_locations),
     Weather.mkState (Weather.JStr <$> Weather.fallback_locations) ∅ 0
       ["https://opendata.cwa.gov.tw/api/v1/rest/datastore/F-C0032-001?Authorization=KEY"%string])
  ∧ Weather._get_all_location_names "KEY" Example.http_down
      (Weather.mkState (Weather.JStr <$> Weather.fallback_locations) ∅ 0
         ["https://opendata.cwa.gov.tw/api/v1/rest/datastore/F-C0032-001?Authorization=KEY"%string])
    = (Return (Weather.JStr <$> Weather.fallback_locations),
       Weather.mkState (Weather.JStr <$> Weather.fallback_locations) ∅ 0
         ["https://opendata.cwa.gov.tw/api/v1/rest/datastore/F-C0032-001?Authorization=KEY"%string]).
Proof.
  split; [reflexivity |].
  apply (location_names_fetched_once "KEY" Example.http_down (Weather.JStr <$> Weather.fallback_locations)
           (Weather.mkState [] ∅ 0 [])); [reflexivity | discriminate].
Defined.

Lemma lookup_raises_only_from_corrector_witness :
  existsb Example.isdigit (Weather.characters "臺北市") = false
  ∧ Weather._get_all_location_names "KEY" Example.http_null_name Example.fresh_start
    = (Return [Weather.JNull],
       Weather.mkState [Weather.JNull] ∅ 0
         ["https://opendata.cwa.gov.tw/api/v1/rest/datastore/F-C0032-001?Authorization=KEY"%string])
  ∧ Weather._auto_correct_city Example.MANUAL_CORRECTIONS Example.extractOne
      "臺北市" [Weather.JNull] = Raise Py.TypeError
  ∧ Weather.get_current_weather "KEY" Example.MANUAL_CORRECTIONS Example.WEATHER_KEYWORDS_MAP
      Example.extractOne Example.isdigit Example.str_of_exn Example.strptime
      Example.timeline Example.clock Example.http_null_name "臺北市" Example.fresh_start
    = (Raise Py.TypeError,
       Weather.mkState [Weather.JNull] ∅ 0
         ["https://opendata.cwa.gov.tw/api/v1/rest/datastore/F-C0032-001?Authorization=KEY"%string]).
Proof.
  assert (existsb Example.isdigit (Weather.characters "臺北市") = false) as Hdigit
    by reflexivity.
  assert (Weather._get_all_location_names "KEY" Example.http_null_name Example.fresh_start
          = (Return [Weather.JNull],
             Weather.mkState [Weather.JNull] ∅ 0
               ["https://opendata.cwa.gov.tw/api/v1/rest/datastore/F-C0032-001?Authorization=KEY"%string]))
    as Hnames by reflexivity.
  assert (Weather._auto_correct_city Example.MANUAL_CORRECTIONS Example.extractOne
            "臺北市" [Weather.JNull] = Raise Py.TypeError) as Hraise
    by (vm_compute; reflexivity).
  split_and!; try assumption.
  destruct (lookup_raises_only_from_corrector "KEY" Example.MANUAL_CORRECTIONS
              Example.WEATHER_KEYWORDS_MAP Example.extractOne Example.isdigit
              Example.str_of_exn Example.strptime Example.timeline Example.clock
              Example.http_null_name "臺北市" [Weather.JNull] Example.fresh_start _
              Hdigit Hnames) as [Hescapes _].
  exact (Hescapes Py.TypeError Hraise).
Defined.

Lemma lookup_unrecognised_witness :
  existsb Example.isdigit (Weather.characters "火星") = false
  ∧ Weather.get_current_weather "KEY" Example.MANUAL_CORRECTIONS Example.WEATHER_KEYWORDS_MAP
      Example.extractOne Example.isdigit Example.str_of_exn Example.strptime
      Example.timeline Example.clock
      (λ _ _, Return (Weather.JObj [("records"%string,
                                     Weather.JObj [("location"%string, Weather.JArr [])])]))
      "火星" (Weather.mkState [] ∅ 0 [])
    = (Return (mkWeatherResponse "火星" "無效輸入" "無效或無法識別的縣市: 火星" "晴"),
       Weather.mkState [] ∅ 0
         ["https://opendata.cwa.gov.tw/api/v1/rest/datastore/F-C0032-001?Authorization=KEY"%string]).
Proof.
  split; [reflexivity |].
  apply (lookup_unrecognised "KEY" Example.MANUAL_CORRECTIONS Example.WEATHER_KEYWORDS_MAP
           Example.extractOne Example.isdigit Example.str_of_exn Example.strptime
           Example.timeline Example.clock
           (λ _ _, Return (Weather.JObj [("records"%string,
                                          Weather.JObj [("location"%string, Weather.JArr [])])]))
           "火星" []); [reflexivity | reflexivity | by right; right].
Defined.

Lemma lookup_keeps_cache_filed_witness :
  well_filed (Weather._weather_data_cache Example.warm)
  ∧ well_filed
      (Weather._weather_data_cache
         (Weather.get_current_weather "KEY" Example.MANUAL_CORRECTIONS
            Example.WEATHER_KEYWORDS_MAP Example.extractOne Example.isdigit
            Example.str_of_exn Example.strptime Example.timeline Example.late_clock
            Example.http_ok "台北" Example.warm).2).
Proof.
  assert (well_filed (Weather._weather_data_cache Example.warm)) as Hfiled.
  { intros key response timestamp. simpl. rewrite lookup_singleton.
    destruct (decide ("臺北市"%string = key)) as [<- | Hne]; [| discriminate].
    by intros [= <- _]. }
  split; [exact Hfiled |].
  apply (lookup_keeps_cache_filed "KEY" Example.MANUAL_CORRECTIONS
           Example.WEATHER_KEYWORDS_MAP Example.extractOne Example.isdigit
           Example.str_of_exn Example.strptime Example.timeline Example.late_clock
           Example.http_ok "台北" Example.warm Hfiled).
Defined.

Lemma classifier_configured_keyword_first_witness :
  Example.WEATHER_KEYWORDS_MAP = [("晴", "晴")]%string ++ [("雨", "雨")]%string
  ∧ Weather.is_substring "晴" "多雲時陰短暫雨" = false
  ∧ Weather.is_substring "雨" "多雲時陰短暫雨" = true
  ∧ Weather._classify_weather_type Example.WEATHER_KEYWORDS_MAP "多雲時陰短暫雨"
    = "雨"%string.
Proof.
  split; [reflexivity |]. split; [reflexivity |]. split; [reflexivity |].
  apply (classifier_configured_keyword_first Example.WEATHER_KEYWORDS_MAP
           "多雲時陰短暫雨" "雨" "雨" [("晴", "晴")]%string []);
    [reflexivity | by repeat constructor | reflexivity].
Defined.

Lemma nearest_forecast_selected_witness :
  Forall2 (λ x dt, start_of Example.strptime_slots x = Return dt)
    [Example.slot "2025-07-01 06:00:00"; Example.slot "2025-07-01 12:00:00"]
    [Example.morning; Example.noon]
  ∧ (Weather.min_by_distance Example.strptime_slots Example.timeline Example.clock
       [Example.slot "2025-07-01 06:00:00"; Example.slot "2025-07-01 12:00:00"]
       Example.cold).1
    = Return (Example.slot "2025-07-01 12:00:00").
Proof.
  assert (Forall2 (λ x dt, start_of Example.strptime_slots x = Return dt)
            [Example.slot "2025-07-01 06:00:00"; Example.slot "2025-07-01 12:00:00"]
            [Example.morning; Example.noon]) as Hstarts
    by (repeat constructor).
  split; [exact Hstarts |].
  destruct (nearest_forecast_selected Example.strptime_slots Example.timeline Example.clock
              _ _ Example.cold Hstarts) as [(m & x & k & st' & Hrun & _) _];
    [discriminate |].
  reflexivity.
Defined.
